(** * Chained extended attributes (src/os/filestore/chain_xattr.cc)

    A shallow embedding of the xattr chaining layer of the FileStore and
    the properties of its name codec, chunked read engine, chain removal
    and listing.

    Conventions of the embedding.
    - [int] values are integers ([Z]), kept within 32 bits where the code
      adds or multiplies values that come from the primitives
      ([total += r], [pos += r], [r * 2]) or converts a length or a
      pointer difference to [int]: the result wraps around in two's
      complement, as it does in the compiled code.  What the primitives
      return, the chunk index [i] and the positions inside the name
      arrays are taken as they are.  [size_t] values are integers reduced
      modulo [2^64] where the code computes them.
    - A C string that is only read up to its terminator is the list of its
      characters before the terminating NUL.  Memory that the code scans
      with a moving pointer is the list of the bytes from the pointer to
      the end of the object it points into; a read beyond it is undefined.
    - A destination array is the list of its bytes; stores go through
      list update at the index written. *)

From Stdlib Require Import ZArith Ascii String DecimalString DecimalPos DecimalZ.
From stdpp Require Import gmap strings list.

Local Open Scope Z_scope.

(** ** Outcomes of a run *)

Inductive outcome (A : Type) : Type :=
| Ret (a : A)      (* the function returned *)
| Crash            (* a ceph_assert failed or an exception escaped *)
| Undef            (* access outside an object *)
| OutOfFuel.       (* the loop bound of the model was reached *)

Arguments Ret {A} a.
Arguments Crash {A}.
Arguments Undef {A}.
Arguments OutOfFuel {A}.

Definition obind {A B} (m : outcome A) (k : A -> outcome B) : outcome B :=
  match m with
  | Ret a => k a
  | Crash => Crash
  | Undef => Undef
  | OutOfFuel => OutOfFuel
  end.

(** ** Characters and buffers *)

Definition NUL : ascii := "000"%char.
Definition AT : ascii := "@"%char.

(** A C string given by its characters: no NUL among them. *)
Definition cstring (s : list ascii) : Prop := NUL ∉ s.

#[global] Instance cstring_dec s : Decision (cstring s).
Proof. unfold cstring. apply _. Defined.

(** The characters of a string literal. *)
Abbreviation str := list_ascii_of_string.

(** ** Name codec *)

Module Codec.

(** The scanning loop of [get_raw_xattr_name]: the characters
    stored through [raw_name] and the final [pos]. *)
Fixpoint get_raw_xattr_name_loop (name : list ascii) (pos raw_len : Z)
  : outcome (list ascii * Z) :=
  match name with
  | [] => Ret ([], pos)
  | ch :: name' =>
      if decide (ch = AT) then
        let pos := pos + 2 in
        if bool_decide (pos < raw_len - 1) then
          obind (get_raw_xattr_name_loop name' pos raw_len)
                (fun '(out, pos') => Ret (AT :: AT :: out, pos'))
        else Crash
      else
        let pos := pos + 1 in
        if bool_decide (pos < raw_len - 1) then
          obind (get_raw_xattr_name_loop name' pos raw_len)
                (fun '(out, pos') => Ret (ch :: out, pos'))
        else Crash
  end.

(** What [snprintf] prints for the format "@%d". *)
Definition at_decimal (i : Z) : list ascii :=
  AT :: list_ascii_of_string (NilZero.string_of_int (Z.to_int i)).

(** [get_raw_xattr_name(name, i, raw_name, raw_len)]: the C string left
    in [raw_name]. *)
Definition get_raw_xattr_name (name : list ascii) (i : Z) (raw_len : Z)
  : outcome (list ascii) :=
  obind (get_raw_xattr_name_loop name 0 raw_len) (fun '(out, pos) =>
    if bool_decide (i = 0) then Ret out
    else
      let r := Z.of_nat (length (at_decimal i)) in
      if bool_decide (r < raw_len - pos) then Ret (out ++ at_decimal i)
      else Crash).

(** The tail of an iteration of the [while] loop of [translate_raw_name]:
    [pos++; ceph_assert(pos < name_len); name++; raw_name++]. *)
Definition advance {A} (pos name_len : Z) (k : Z -> outcome A) : outcome A :=
  let pos := pos + 1 in
  if bool_decide (pos < name_len) then k pos else Crash.

(** The loop of [translate_raw_name].  [raw] is the memory from
    [raw_name] on, [name] the whole destination array, [pos] the index
    the [name] pointer has reached.  The result is [pos], the array and
    the value left in [is_first]. *)
Fixpoint translate_raw_name_loop (raw : list ascii) (name : list ascii)
    (pos name_len : Z) : outcome (Z * list ascii * bool) :=
  match raw with
  | [] => Undef
  | ch :: raw1 =>
      if decide (ch = NUL) then
        Ret (pos, <[Z.to_nat pos := NUL]> name, true)
      else if decide (ch = AT) then
        match raw1 with
        | [] => Undef
        | ch1 :: raw2 =>
            if decide (ch1 = NUL) then
              (* [break] leaves the switch only: nothing is stored *)
              advance pos name_len (fun pos =>
                translate_raw_name_loop raw2 name pos name_len)
            else if decide (ch1 ≠ AT) then
              Ret (pos, <[Z.to_nat pos := NUL]> name, false)
            else
              advance pos name_len (fun pos =>
                translate_raw_name_loop raw2 (<[Z.to_nat (pos - 1) := ch1]> name)
                                        pos name_len)
        end
      else
        advance pos name_len (fun pos =>
          translate_raw_name_loop raw1 (<[Z.to_nat (pos - 1) := ch]> name)
                                  pos name_len)
  end.

Definition translate_raw_name (raw_name : list ascii) (name : list ascii)
    (name_len : Z) : outcome (Z * list ascii * bool) :=
  translate_raw_name_loop raw_name name 0 name_len.

(** The C string held by an array: its bytes before the first NUL. *)
Fixpoint c_str (buf : list ascii) : outcome (list ascii) :=
  match buf with
  | [] => Undef
  | ch :: buf' =>
      if decide (ch = NUL) then Ret []
      else obind (c_str buf') (fun s => Ret (ch :: s))
  end.

End Codec.

Import Codec.

(** ** Constants *)

(** errno.h (Linux values). *)
Definition ENOMEM : Z := 12.
Definition ERANGE : Z := 34.
Definition ENODATA : Z := 61.

(** The constants of chain_xattr.h, which the functions below take from
    their environment. *)
Class ChainHeader := {
  CHAIN_XATTR_MAX_NAME_LEN : Z;
  CHAIN_XATTR_MAX_BLOCK_LEN : Z;
  CHAIN_XATTR_SHORT_BLOCK_LEN : Z;
  CHAIN_XATTR_SHORT_LEN_THRESHOLD : Z
}.

(** Arithmetic of [size_t]. *)
Definition size_t (z : Z) : Z := z mod 2 ^ 64.

(** Arithmetic of [int]: 32 bits in two's complement.  A sum or a
    product that leaves the range wraps around, as it does in the
    compiled code; so does a length converted to [int]. *)
Definition INT_MAX : Z := 2 ^ 31 - 1.
Definition c_int (z : Z) : Z := (z + 2 ^ 31) mod 2 ^ 32 - 2 ^ 31.

Arguments INT_MAX : simpl never.
Arguments c_int z : simpl never.

(** ** The primitive attribute operations *)

(** What the chaining layer consumes, for one way of addressing an object
    ([H] is a path or a descriptor) over a store [W]:
    - [prim_getxattr fn name size w]: the return value of the primitive
      get and the bytes it stores through its buffer argument;
    - [prim_removexattr fn name w]: the return value and the store left;
    - [prim_listxattr fn size w]: the return value and the bytes stored;
    - [malloc_ok n w]: whether an allocation of [n] bytes succeeds;
    - [junk w]: the indeterminate contents of fresh memory. *)
Class XattrOps (H W : Type) := {
  prim_getxattr : H -> list ascii -> Z -> W -> Z * list ascii;
  prim_removexattr : H -> list ascii -> W -> Z * W;
  prim_listxattr : H -> Z -> W -> Z * list ascii;
  malloc_ok : Z -> W -> bool;
  junk : W -> list ascii
}.

(** The primitive calls a run has made, oldest first. *)
Inductive syscall (H : Type) : Type :=
| Getxattr (fn : H) (name : list ascii) (size : Z)
| Removexattr (fn : H) (name : list ascii)
| Listxattr (fn : H) (size : Z).

Arguments Getxattr {H} fn name size.
Arguments Removexattr {H} fn name.
Arguments Listxattr {H} fn size.

Record state (H W : Type) : Type := State {
  world : W;
  trace : list (syscall H)
}.

Arguments State {H W} world trace.
Arguments world {H W} s.
Arguments trace {H W} s.

(** Computations over the store: state passing with outcomes. *)
Definition M (H W A : Type) : Type := state H W -> outcome (A * state H W).

Definition mret {H W A} (a : A) : M H W A := fun st => Ret (a, st).

Definition mbind {H W A B} (m : M H W A) (k : A -> M H W B) : M H W B :=
  fun st => obind (m st) (fun '(a, st') => k a st').

Definition lift {H W A} (o : outcome A) : M H W A :=
  fun st => obind o (fun a => Ret (a, st)).

Definition out_of_fuel {H W A} : M H W A := fun _ => OutOfFuel.

Notation "x <- m ;; k" := (mbind m (fun x => k))
  (at level 20, m at level 99, k at level 200, only parsing).
Notation "' pat <- m ;; k" := (mbind m (fun pat => k))
  (at level 20, pat pattern, m at level 99, k at level 200, only parsing).

(** A store of [data] at offset [off] of the array [buf]. *)
Definition poke (buf : list ascii) (off : Z) (data : list ascii)
  : outcome (list ascii) :=
  if bool_decide (0 <= off /\ off + Z.of_nat (length data) <= Z.of_nat (length buf)) then
    Ret (take (Z.to_nat off) buf ++ data
         ++ drop (Z.to_nat off + length data) buf)
  else Undef.

(** [strcpy(dest, src)] where [dest] is [buf + off]. *)
Definition strcpy (buf : list ascii) (off : Z) (src : list ascii)
  : outcome (list ascii) :=
  obind (c_str src) (fun s => poke buf off (s ++ [NUL])).

Section Chain.
Context `{Hdr : ChainHeader} {H W : Type} `{Ops : !XattrOps H W}.

Local Abbreviation M := (M H W).

Definition log (c : syscall H) (st : state H W) : state H W :=
  State (world st) (trace st ++ [c]).

(** [sys_getxattr(fn, name, val + pos, size)]; with [size == 0] nothing
    is stored. *)
Definition sys_getxattr (fn : H) (name : list ascii) (val : list ascii)
    (pos size : Z) : M (Z * list ascii) := fun st =>
  let '(r, data) := prim_getxattr fn name size (world st) in
  let st := log (Getxattr fn name size) st in
  if bool_decide (size = 0) then Ret ((r, val), st)
  else obind (poke val pos data) (fun val => Ret ((r, val), st)).


(** [sys_listxattr(fn, buf, size)]. *)
Definition sys_listxattr (fn : H) (buf : list ascii) (size : Z)
  : M (Z * list ascii) := fun st =>
  let '(r, data) := prim_listxattr fn size (world st) in
  let st := log (Listxattr fn size) st in
  if bool_decide (size = 0) then Ret ((r, buf), st)
  else obind (poke buf 0 data) (fun buf => Ret ((r, buf), st)).

(** A fresh object of [n] bytes. *)
Definition fresh (n : Z) : M (list ascii) := fun st =>
  Ret (resize (Z.to_nat n) NUL (junk (world st)), st).

Definition malloc (n : Z) : M (option (list ascii)) := fun st =>
  if malloc_ok n (world st) then mbind (fresh n) (fun b => mret (Some b)) st
  else Ret (None, st).

(** [bufferptr buf(size)]; a failed allocation throws. *)
Definition bufferptr_new (size : Z) : M (list ascii) := fun st =>
  if malloc_ok size (world st) then fresh size st else Crash.

(** [sizeof(raw_name)], also [sizeof(name)] in the listing loop. *)
Definition RAW_NAME_SIZE : Z := CHAIN_XATTR_MAX_NAME_LEN * 2 + 16.

Definition is_block_len (r : Z) : bool :=
  bool_decide (r = CHAIN_XATTR_MAX_BLOCK_LEN)
  || bool_decide (r = CHAIN_XATTR_SHORT_BLOCK_LEN).

(** *** getxattr_len / chain_fgetxattr_len *)

(** [total] is an [int]: [total += r] is an addition of [int]s. *)
Fixpoint getxattr_len_loop (fuel : nat) (fn : H) (name : list ascii)
    (i total : Z) : M Z :=
  match fuel with
  | O => out_of_fuel
  | S fuel =>
      raw_name <- lift (get_raw_xattr_name name i RAW_NAME_SIZE) ;;
      '(r, _) <- sys_getxattr fn raw_name [] 0 0 ;;
      if bool_decide (i = 0) && bool_decide (r < 0) then mret r
      else if bool_decide (r < 0) then mret total
      else
        let total := c_int (total + r) in
        let i := i + 1 in
        if is_block_len r then getxattr_len_loop fuel fn name i total
        else mret total
  end.

Definition getxattr_len (fuel : nat) (fn : H) (name : list ascii) : M Z :=
  getxattr_len_loop fuel fn name 0 0.

(** *** chain_getxattr / chain_fgetxattr *)

(** The locals of [chain_getxattr] when its loop is left. *)
Record getxattr_locals : Type := Locals {
  l_i : Z;
  l_pos : Z;
  l_ret : Z;
  l_r : Z;
  l_chunk_size : Z;
  l_val : list ascii
}.

(** [pos] and [ret] are [int]s, [size] and [chunk_size] are [size_t]:
    [pos += r] is an addition of [int]s, [size -= r] a subtraction in
    [size_t].  The primitive stores at [val + pos]. *)
Fixpoint chain_getxattr_loop (fuel : nat) (fn : H) (name : list ascii)
    (val : list ascii) (i pos size : Z) : M getxattr_locals :=
  match fuel with
  | O => out_of_fuel
  | S fuel =>
      let chunk_size := size in
      raw_name <- lift (get_raw_xattr_name name i RAW_NAME_SIZE) ;;
      '(r, val) <- sys_getxattr fn raw_name val pos chunk_size ;;
      if bool_decide (i ≠ 0) && bool_decide (r = - ENODATA) then
        mret (Locals i pos pos r chunk_size val)
      else if bool_decide (r < 0) then
        mret (Locals i pos r r chunk_size val)
      else
        let '(pos, size) :=
          if bool_decide (r > 0) then (c_int (pos + r), size_t (size - r))
          else (pos, size) in
        let i := i + 1 in
        if bool_decide (size ≠ 0) && is_block_len r then
          chain_getxattr_loop fuel fn name val i pos size
        else mret (Locals i pos 0 r chunk_size val)
  end.

(** The statements of [chain_getxattr] after its loop. *)
Definition chain_getxattr_end (fn : H) (name : list ascii)
    (l : getxattr_locals) : M (Z * list ascii) :=
  if bool_decide (l_r l >= 0) then
    let ret := l_pos l in
    if is_block_len (l_chunk_size l) then
      raw_name <- lift (get_raw_xattr_name name (l_i l) RAW_NAME_SIZE) ;;
      '(r, _) <- sys_getxattr fn raw_name [] 0 0 ;;
      if bool_decide (r > 0) then mret (- ERANGE, l_val l)
      else mret (ret, l_val l)
    else mret (ret, l_val l)
  else mret (l_ret l, l_val l).

Definition chain_getxattr (fuel : nat) (fn : H) (name : list ascii)
    (val : list ascii) (size : Z) : M (Z * list ascii) :=
  if bool_decide (size = 0) then
    r <- getxattr_len fuel fn name ;; mret (r, val)
  else
    l <- chain_getxattr_loop fuel fn name val 0 0 size ;;
    chain_getxattr_end fn name l.

(** *** chain_getxattr_buf *)

(** [bp] is [None] for a null pointer, else the buffer it points to.
    [fuel_rd] bounds the loops of the reads. *)
Fixpoint chain_getxattr_buf_loop (fuel fuel_rd : nat) (fn : H)
    (name : list ascii) (bp : option (list ascii)) (size : Z)
  : M (Z * option (list ascii)) :=
  match fuel with
  | O => out_of_fuel
  | S fuel =>
      buf <- bufferptr_new size ;;
      '(r, buf) <- chain_getxattr fuel_rd fn name buf size ;;
      if bool_decide (r > 0) then
        let buf := take (Z.to_nat r) buf in
        mret (r, match bp with Some _ => Some buf | None => None end)
      else if bool_decide (r = 0) then mret (0, bp)
      else if bool_decide (r = - ERANGE) then
        chain_getxattr_buf_loop fuel fuel_rd fn name bp (size_t (size * 2))
      else mret (r, bp)
  end.

Definition chain_getxattr_buf (fuel fuel_rd : nat) (fn : H)
    (name : list ascii) (bp : option (list ascii))
  : M (Z * option (list ascii)) :=
  chain_getxattr_buf_loop fuel fuel_rd fn name bp 1024.

(** *** get_xattr_block_size *)

Definition get_xattr_block_size (size : Z) : Z :=
  if bool_decide (size <= CHAIN_XATTR_SHORT_LEN_THRESHOLD) then
    CHAIN_XATTR_SHORT_BLOCK_LEN
  else CHAIN_XATTR_MAX_BLOCK_LEN.

(** *** chain_removexattr / chain_fremovexattr *)



(** *** chain_listxattr / chain_flistxattr *)

(** The [while (p < end)] loop and [r = dest - names]; [p], [dest] are
    offsets into [full_buf] and [names], [attr_len] and the result are
    [int]s.  While the lengths of the keys fit [int], each round moves
    [p] forward, so [end - p] rounds are enough; a [p] that has moved
    below [full_buf] is outside the object. *)
Fixpoint chain_listxattr_loop (fuel : nat) (full_buf : list ascii)
    (p end_ : Z) (names : list ascii) (dest dest_end : Z)
  : M (Z * list ascii) :=
  if bool_decide (p < end_) then
    match fuel with
    | O => out_of_fuel
    | S fuel =>
        name <- fresh RAW_NAME_SIZE ;;
        attr <- lift (if bool_decide (0 <= p)
                      then c_str (drop (Z.to_nat p) full_buf)
                      else Undef) ;;
        let attr_len := c_int (Z.of_nat (length attr)) in
        '(name_len, name, is_first) <-
          lift (translate_raw_name (drop (Z.to_nat p) full_buf) name
                                   RAW_NAME_SIZE) ;;
        if (is_first : bool) then
          if bool_decide (dest + name_len > dest_end) then
            mret (- ERANGE, names)
          else
            names <- lift (strcpy names dest name) ;;
            chain_listxattr_loop fuel full_buf (p + c_int (attr_len + 1)) end_
                                 names (dest + name_len + 1) dest_end
        else
          chain_listxattr_loop fuel full_buf (p + c_int (attr_len + 1)) end_
                               names dest dest_end
    end
  else mret (c_int dest, names).

(** [r * 2] is a product of [int]s, both where it is returned and where
    it initialises the [size_t] [total_len]. *)
Definition chain_listxattr (fn : H) (names : list ascii) (len : Z)
  : M (Z * list ascii) :=
  if bool_decide (len = 0) then
    '(r, names) <- sys_listxattr fn names len ;; mret (c_int (r * 2), names)
  else
    '(r, _) <- sys_listxattr fn [] 0 ;;
    if bool_decide (r < 0) then mret (r, names)
    else
      let total_len := size_t (c_int (r * 2)) in
      full_buf <- malloc total_len ;;
      match full_buf with
      | None => mret (- ENOMEM, names)
      | Some full_buf =>
          '(r, full_buf) <- sys_listxattr fn full_buf total_len ;;
          if bool_decide (r < 0) then mret (r, names)
          else
            chain_listxattr_loop (Z.to_nat r) full_buf 0 r names 0 len
      end.

End Chain.

(** The descriptor-addressed entry points run the same statements over
    [sys_fgetxattr], [sys_fremovexattr] and [sys_flistxattr]: they are the
    functions above at the primitives of a descriptor. *)
Section Descriptor.
Context `{Hdr : ChainHeader} {W : Type} `{Ops : !XattrOps Z W}.

Definition chain_fgetxattr (fuel : nat) (fd : Z) := chain_getxattr fuel fd.
Definition chain_flistxattr (fd : Z) := chain_listxattr fd.
End Descriptor.

(** ** A store of attributes *)

Module Store.

(** The attributes of one object: a finite map from physical key to
    value. *)
Abbreviation attrs := (gmap (list ascii) (list ascii)).

(** Modelled from the spec: the primitive get (section 6, the consumed
    capability interface), which is not part of chain_xattr.cc.  Capacity
    0 reports the length and stores nothing, a capacity below the length
    is "buffer too small", an absent key is "not found". *)
Definition getxattr (_ : Z) (key : list ascii) (size : Z) (m : attrs)
  : Z * list ascii :=
  match m !! key with
  | None => (- ENODATA, [])
  | Some v =>
      let n := Z.of_nat (length v) in
      if bool_decide (size = 0) then (n, [])
      else if bool_decide (size < n) then (- ERANGE, [])
      else (n, v)
  end.

(** Modelled from the spec: the primitive remove of one key. *)
Definition removexattr (_ : Z) (key : list ascii) (m : attrs) : Z * attrs :=
  match m !! key with
  | None => (- ENODATA, m)
  | Some _ => (0, delete key m)
  end.

(** Modelled from the spec: the primitive list, a sequence of
    NUL-terminated keys; capacity 0 reports the size needed. *)
Definition key_stream (m : attrs) : list ascii :=
  concat (map (fun kv => fst kv ++ [NUL]) (map_to_list m)).

Definition listxattr (_ : Z) (size : Z) (m : attrs) : Z * list ascii :=
  let s := key_stream m in
  let n := Z.of_nat (length s) in
  if bool_decide (size = 0) then (n, [])
  else if bool_decide (size < n) then (- ERANGE, [])
  else (n, s).

#[global] Instance ops : XattrOps Z attrs := {
  prim_getxattr := getxattr;
  prim_removexattr := removexattr;
  prim_listxattr := listxattr;
  malloc_ok := fun _ _ => true;
  junk := fun _ => []
}.

(** Values for the constants of chain_xattr.h, for the examples. *)
#[global] Instance header : ChainHeader := {
  CHAIN_XATTR_MAX_NAME_LEN := 128;
  CHAIN_XATTR_MAX_BLOCK_LEN := 2048;
  CHAIN_XATTR_SHORT_BLOCK_LEN := 250;
  CHAIN_XATTR_SHORT_LEN_THRESHOLD := 1000
}.

Definition init (m : attrs) : state Z attrs := State m [].

(** An object with the chain of "a@b" (a full short chunk and a last
    chunk) and the single-chunk attribute "c". *)
Definition sample : attrs :=
  {[ str "a@@b" := replicate 250 "x"%char;
     str "a@@b@1" := str "hello";
     str "c" := str "v" ]}.

(** An object with one attribute of 1500 bytes, in a single chunk. *)
Definition big : attrs := {[ str "big" := replicate 1500 "y"%char ]}.

(** An object with one attribute whose value is empty. *)
Definition hollow : attrs := {[ str "e" := [] ]}.


End Store.

(** Primitives that report what two tables say and store nothing, for
    the examples with sizes that no object of [Store] could hold. *)
Module Script.

Definition ops (get : list ascii -> Z) (lst : Z) : XattrOps Z unit := {|
  prim_getxattr := fun _ key _ _ => (get key, []);
  prim_removexattr := fun _ _ w => (- ENODATA, w);
  prim_listxattr := fun _ _ _ => (lst, []);
  malloc_ok := fun _ _ => true;
  junk := fun _ => []
|}.

(** A chunk of 2048 bytes followed by one of [INT_MAX] bytes. *)
Definition huge (key : list ascii) : Z :=
  if decide (key = str "n") then 2048
  else if decide (key = str "n@1") then INT_MAX
  else - ENODATA.

End Script.


(** ** Auxiliary definitions for the statements *)

(** The characters the loop of [get_raw_xattr_name] emits for a name. *)
Fixpoint escape (name : list ascii) : list ascii :=
  match name with
  | [] => []
  | ch :: name' =>
      if decide (ch = AT) then AT :: AT :: escape name'
      else ch :: escape name'
  end.

(** A character that is neither the terminator nor the escape
    character, as are the characters [snprintf] prints for a number. *)
Definition plain (ch : ascii) : Prop := ch ≠ NUL /\ ch ≠ AT.

(** The key of chunk [i] of a name, as a returning call of
    [get_raw_xattr_name] leaves it. *)
Definition key_of (name : list ascii) (i : Z) : list ascii :=
  escape name ++ (if bool_decide (i = 0) then [] else at_decimal i).

(** What a run has returned, if it has. *)
Definition returned {A S : Type} (o : outcome (A * S)) : option A :=
  match o with
  | Ret (a, _) => Some a
  | _ => None
  end.


(** The sum of a list of lengths. *)
Definition total_len (lens : list Z) : Z := foldr Z.add 0 lens.

(** The names a listing reports for a list of (name, chunk index) pairs:
    those of the chunk-0 keys, each with its terminator. *)
Definition logical_names (entries : list (list ascii * Z)) : list ascii :=
  concat (map (fun e => fst e ++ [NUL])
              (filter (fun e => snd e = 0) entries)).

(** The raw key stream of these pairs. *)
Definition physical_keys (entries : list (list ascii * Z)) : list ascii :=
  concat (map (fun e => key_of (fst e) (snd e) ++ [NUL]) entries).

Section Scenario.
Context `{Hdr : ChainHeader} {H W : Type} `{Ops : !XattrOps H W}.

(** The header constants are lengths. *)
Definition header_ok : Prop :=
  0 <= CHAIN_XATTR_MAX_NAME_LEN
  /\ 0 < CHAIN_XATTR_MAX_BLOCK_LEN
  /\ 0 < CHAIN_XATTR_SHORT_BLOCK_LEN.

(** The key of chunk [i] fits the array [raw_name] of the callers. *)
Definition encodable (name : list ascii) (i : Z) : Prop :=
  get_raw_xattr_name name i RAW_NAME_SIZE = Ret (key_of name i).

(** The store holds the value [v] under [key]: the length-only get
    reports its length, a get with room for it delivers it. *)
Definition holds (fn : H) (w : W) (key v : list ascii) : Prop :=
  (exists d, prim_getxattr fn key 0 w = (Z.of_nat (length v), d))
  /\ forall size, size ≠ 0 -> Z.of_nat (length v) <= size ->
       prim_getxattr fn key size w = (Z.of_nat (length v), v).

(** The store has nothing under [key]. *)
Definition absent (fn : H) (w : W) (key : list ascii) : Prop :=
  forall size, prim_getxattr fn key size w = (- ENODATA, []).

(** The chunks [vs] are stored under the keys of the indices from [i]. *)
Inductive stored (fn : H) (name : list ascii) (w : W)
  : Z -> list (list ascii) -> Prop :=
| stored_nil i : stored fn name w i []
| stored_cons i v vs :
    encodable name i ->
    holds fn w (key_of name i) v ->
    stored fn name w (i + 1) vs ->
    stored fn name w i (v :: vs).

(** The length-only gets at the indices from [i] report the lengths
    [lens], each a block length. *)
Inductive probed (fn : H) (name : list ascii) (w : W)
  : Z -> list Z -> Prop :=
| probed_nil i : probed fn name w i []
| probed_cons i r d lens :
    encodable name i ->
    prim_getxattr fn (key_of name i) 0 w = (r, d) ->
    0 <= r -> is_block_len r = true ->
    probed fn name w (i + 1) lens ->
    probed fn name w i (r :: lens).

(** The primitive gets of a read of the chunks [vs] from index [i] with
    [size] bytes of room left, and of [n] length-only gets. *)
Fixpoint read_calls (fn : H) (name : list ascii) (i size : Z)
    (vs : list (list ascii)) : list (syscall H) :=
  match vs with
  | [] => []
  | v :: vs =>
      Getxattr fn (key_of name i) size
      :: read_calls fn name (i + 1) (size - Z.of_nat (length v)) vs
  end.

Fixpoint probe_calls (fn : H) (name : list ascii) (i : Z) (n : nat)
  : list (syscall H) :=
  match n with
  | O => []
  | S n => Getxattr fn (key_of name i) 0 :: probe_calls fn name (i + 1) n
  end.




(** [n] bounded reads into fresh buffers of the sizes from [size],
    doubled each time, report a truncated result. *)
Inductive grown (fuel_rd : nat) (fn : H) (name : list ascii)
  : Z -> state H W -> nat -> Z -> state H W -> Prop :=
| grown_nil size st : grown fuel_rd fn name size st O size st
| grown_cons size st buf st1 buf' st2 n size' st' :
    bufferptr_new size st = Ret (buf, st1) ->
    chain_getxattr fuel_rd fn name buf size st1 = Ret ((- ERANGE, buf'), st2) ->
    grown fuel_rd fn name (size_t (size * 2)) st2 n size' st' ->
    grown fuel_rd fn name size st (S n) size' st'.

End Scenario.

Section ScenarioMore.
Context `{Hdr : ChainHeader} {H W : Type} `{Ops : !XattrOps H W}.

(** A get with less room than the value [v] under [key] needs reports
    "buffer too small" and stores nothing. *)
Definition too_small (fn : H) (w : W) (key v : list ascii) : Prop :=
  forall size, size ≠ 0 -> size < Z.of_nat (length v) ->
    prim_getxattr fn key size w = (- ERANGE, []).

(** This holds for the chunks [vs] under the keys of the indices from
    [i]. *)
Inductive guarded (fn : H) (name : list ascii) (w : W)
  : Z -> list (list ascii) -> Prop :=
| guarded_nil i : guarded fn name w i []
| guarded_cons i v vs :
    too_small fn w (key_of name i) v ->
    guarded fn name w (i + 1) vs ->
    guarded fn name w i (v :: vs).

(** The primitive get never reports more bytes than it was given room
    for. *)
Definition get_within (fn : H) (w : W) : Prop :=
  forall key size r d,
    0 < size -> prim_getxattr fn key size w = (r, d) -> r <= size.

(** The primitive get never reports, and never stores, more bytes than
    it was given room for. *)
Definition get_fits (fn : H) (w : W) : Prop :=
  forall key size r d,
    0 < size -> prim_getxattr fn key size w = (r, d) ->
    r <= size /\ Z.of_nat (length d) <= size.



(** Two runs, one on the store [w] and one on [w'], end alike and leave
    the stores as they were. *)
Definition same_answer {A} (w w' : W) (o o' : outcome (A * state H W))
  : Prop :=
  match o, o' with
  | Ret (a, s), Ret (a', s') => a = a' /\ world s = w /\ world s' = w'
  | Crash, Crash | Undef, Undef | OutOfFuel, OutOfFuel => True
  | _, _ => False
  end.

End ScenarioMore.

(** Equalities between results, field by field; integers by [lia]. *)
Ltac eq_result :=
  repeat match goal with
         | |- Ret _ = Ret _ => f_equal
         | |- pair _ _ = pair _ _ => f_equal
         | |- Locals _ _ _ _ _ _ = Locals _ _ _ _ _ _ => f_equal
         | |- State _ _ = State _ _ => f_equal
         | |- @eq Z _ _ =>
             solve [lia | simpl length; rewrite ?length_app; simpl length; lia]
         end.

(** * Properties *)

(** ** Name codec *)

Example get_raw_xattr_name_chunk0 :
  get_raw_xattr_name (str "a@b") 0 272 = Ret (str "a@@b").
Proof. reflexivity. Qed.

Example get_raw_xattr_name_chunk1 :
  get_raw_xattr_name (str "a@b") 1 272 = Ret (str "a@@b@1").
Proof. reflexivity. Qed.

Example translate_raw_name_chunk1 :
  translate_raw_name (str "a@@b@1" ++ [NUL]) (replicate 8 "x"%char) 8
  = Ret (3, str "a@b" ++ NUL :: replicate 4 "x"%char, false).
Proof. reflexivity. Qed.

Section CodecFacts.

Implicit Types name raw rest buf pre post : list ascii.

Lemma length_escape_le name :
  (length name <= length (escape name) <= 2 * length name)%nat.
Proof.
  induction name as [|ch name IH]; simpl; [lia|].
  destruct (decide (ch = AT)); simpl; lia.
Qed.

Lemma cstring_cons ch name : cstring (ch :: name) <-> ch ≠ NUL /\ cstring name.
Proof.
  unfold cstring. rewrite not_elem_of_cons. intuition congruence.
Qed.

Lemma cstring_app s t : cstring (s ++ t) <-> cstring s /\ cstring t.
Proof. unfold cstring. apply not_elem_of_app. Qed.

Lemma cstring_escape name : cstring name -> cstring (escape name).
Proof.
  induction name as [|ch name IH]; [done|].
  rewrite cstring_cons. intros [Hch Hn]. simpl.
  destruct (decide (ch = AT)) as [->|_];
    rewrite ?cstring_cons; auto.
Qed.

(** The loop of the encoder emits [escape name], or stops at an
    assertion. *)
Lemma get_raw_xattr_name_loop_ret name pos raw_len :
  pos + Z.of_nat (length (escape name)) < raw_len - 1 ->
  get_raw_xattr_name_loop name pos raw_len
  = Ret (escape name, pos + Z.of_nat (length (escape name))).
Proof.
  revert pos. induction name as [|ch name IH]; intros pos Hlt; simpl in *.
  - do 2 f_equal. lia.
  - destruct (decide (ch = AT)); simpl in Hlt.
    + rewrite bool_decide_eq_true_2 by lia.
      rewrite IH by lia. simpl. do 2 f_equal. lia.
    + rewrite bool_decide_eq_true_2 by lia.
      rewrite IH by lia. simpl. do 2 f_equal. lia.
Qed.

Lemma get_raw_xattr_name_loop_inv name pos raw_len out pos' :
  get_raw_xattr_name_loop name pos raw_len = Ret (out, pos') ->
  out = escape name /\ pos' = pos + Z.of_nat (length (escape name))
  /\ (name ≠ [] -> pos' < raw_len - 1).
Proof.
  revert pos out pos'.
  induction name as [|ch name IH]; intros pos out pos' Heq; simpl in *.
  - inversion Heq; subst. split; [done|]. split; [lia|done].
  - destruct (decide (ch = AT)); case_bool_decide; try done.
    + destruct (get_raw_xattr_name_loop name _ _) as [[o p]| | |] eqn:E; try done.
      simpl in Heq. inversion Heq; subst.
      destruct (IH _ _ _ E) as (-> & -> & Hb). split; [done|].
      split; [simpl; lia|]. intros _.
      destruct name; [simpl; lia|]. apply Hb. done.
    + destruct (get_raw_xattr_name_loop name _ _) as [[o p]| | |] eqn:E; try done.
      simpl in Heq. inversion Heq; subst.
      destruct (IH _ _ _ E) as (-> & -> & Hb). split; [done|].
      split; [simpl; lia|]. intros _.
      destruct name; [simpl; lia|]. apply Hb. done.
Qed.

(** Chunk 0 is encoded as the escaped name. *)
Lemma get_raw_xattr_name_0 name raw_len :
  2 * Z.of_nat (length name) + 1 < raw_len ->
  get_raw_xattr_name name 0 raw_len = Ret (escape name).
Proof.
  intros Hlen. unfold get_raw_xattr_name.
  pose proof (length_escape_le name).
  rewrite get_raw_xattr_name_loop_ret by lia. done.
Qed.

(** Decoding runs through an escaped name, storing the name. *)
Lemma translate_raw_name_loop_escape name rest pre post name_len :
  cstring name ->
  Z.of_nat (length pre + length name) < name_len ->
  (length name <= length post)%nat ->
  translate_raw_name_loop (escape name ++ rest) (pre ++ post)
                          (Z.of_nat (length pre)) name_len
  = translate_raw_name_loop rest ((pre ++ name) ++ drop (length name) post)
                            (Z.of_nat (length pre + length name)) name_len.
Proof.
  revert pre post.
  induction name as [|ch name IH]; intros pre post Hc Hlt Hpost.
  - simpl. rewrite app_nil_r, Nat.add_0_r. done.
  - apply cstring_cons in Hc as [Hch Hc].
    destruct post as [|x post]; simpl in Hpost; [lia|].
    assert (Hins : forall y, <[Z.to_nat (Z.of_nat (length pre) + 1 - 1) := y]> (pre ++ x :: post)
                        = (pre ++ [y]) ++ post).
    { intros y. replace (Z.to_nat _) with (length pre + 0)%nat by lia.
      rewrite insert_app_r. simpl. by rewrite <- app_assoc. }
    assert (Hpos : Z.of_nat (length pre) + 1 = Z.of_nat (length (pre ++ [ch]))).
    { rewrite length_app. simpl. lia. }
    assert (Hres : (pre ++ ch :: name) ++ drop (length (ch :: name)) (x :: post)
                   = ((pre ++ [ch]) ++ name) ++ drop (length name) post).
    { simpl. by rewrite <- (app_assoc pre [ch]). }
    assert (Hlen : (length pre + length (ch :: name) = length (pre ++ [ch]) + length name)%nat).
    { rewrite length_app. simpl. lia. }
    simpl in Hres, Hlen, Hlt. simpl escape.
    destruct (decide (ch = AT)) as [->|Hat].
    + simpl. unfold advance.
      rewrite bool_decide_eq_true_2 by lia.
      rewrite Hins, Hpos, Hres, Hlen. apply IH; [done| |lia].
      rewrite length_app; simpl in *; lia.
    + simpl. destruct (decide (ch = NUL)); [done|].
      destruct (decide (ch = AT)); [done|]. unfold advance.
      rewrite bool_decide_eq_true_2 by lia.
      rewrite Hins, Hpos, Hres, Hlen. apply IH; [done| |lia].
      rewrite length_app; simpl in *; lia.
Qed.

Lemma string_of_uint_plain d :
  Forall plain (list_ascii_of_string (NilEmpty.string_of_uint d)).
Proof.
  induction d; simpl; constructor; auto; split; discriminate.
Qed.

Lemma at_decimal_shape i :
  exists ch tl, at_decimal i = AT :: ch :: tl /\ plain ch /\ Forall plain tl.
Proof.
  unfold at_decimal.
  assert (Hu : forall d, exists ch tl,
    list_ascii_of_string (NilZero.string_of_uint d) = ch :: tl
    /\ plain ch /\ Forall plain tl).
  { intros d. pose proof (string_of_uint_plain d) as Hd.
    destruct d; simpl in *;
      inversion Hd; subst; eexists _, _; (split; [reflexivity|done]). }
  destruct (Z.to_int i) as [d|d]; simpl.
  - destruct (Hu d) as (ch & tl & -> & ? & ?). eauto.
  - destruct (Hu d) as (ch & tl & -> & ? & ?).
    eexists _, _. split; [reflexivity|]. split; [split; discriminate|].
    constructor; auto.
Qed.

Lemma at_decimal_cstring i : cstring (at_decimal i).
Proof.
  destruct (at_decimal_shape i) as (ch & tl & -> & [Hch _] & Htl).
  rewrite !cstring_cons. split; [discriminate|]. split; [done|].
  unfold cstring. intros Hin. rewrite Forall_forall in Htl.
  destruct (Htl _ Hin) as [? _]. done.
Qed.

(** A chunk index other than 0 adds the printed suffix. *)
Lemma get_raw_xattr_name_i name i raw_len :
  i ≠ 0 ->
  Z.of_nat (length (escape name) + length (at_decimal i)) < raw_len ->
  get_raw_xattr_name name i raw_len = Ret (escape name ++ at_decimal i).
Proof.
  intros Hi Hlen. unfold get_raw_xattr_name.
  destruct (at_decimal_shape i) as (ch & tl & Hd & _).
  assert (2 <= length (at_decimal i))%nat by (rewrite Hd; simpl; lia).
  rewrite get_raw_xattr_name_loop_ret by lia. cbv beta iota delta [obind].
  rewrite bool_decide_eq_false_2 by done.
  rewrite bool_decide_eq_true_2 by lia. done.
Qed.

(** What a returning call of the encoder has produced. *)
Lemma get_raw_xattr_name_inv name i raw_len raw :
  get_raw_xattr_name name i raw_len = Ret raw ->
  raw = escape name ++ (if bool_decide (i = 0) then [] else at_decimal i)
  /\ (name ≠ [] -> Z.of_nat (length (escape name)) < raw_len - 1).
Proof.
  unfold get_raw_xattr_name. intros Heq.
  destruct (get_raw_xattr_name_loop name 0 raw_len) as [[o p]| | |] eqn:E; try done.
  simpl in Heq.
  destruct (get_raw_xattr_name_loop_inv _ _ _ _ _ E) as (-> & -> & Hb).
  split; [|intros Hne; specialize (Hb Hne); lia].
  case_bool_decide; [inversion Heq; by rewrite app_nil_r|].
  case_bool_decide; [by inversion Heq|done].
Qed.

Lemma c_str_app s rest : cstring s -> c_str (s ++ NUL :: rest) = Ret s.
Proof.
  induction s as [|ch s IH]; simpl; intros Hc.
  - done.
  - apply cstring_cons in Hc as [Hch Hc].
    rewrite decide_False by done. rewrite IH; done.
Qed.

(** Decoding the key of chunk 0. *)
Lemma translate_raw_name_first name rest buf name_len :
  cstring name ->
  Z.of_nat (length name) < name_len ->
  Z.of_nat (length buf) = name_len ->
  translate_raw_name (escape name ++ NUL :: rest) buf name_len
  = Ret (Z.of_nat (length name), name ++ NUL :: drop (S (length name)) buf, true).
Proof.
  intros Hc Hlt Hbuf. unfold translate_raw_name.
  etrans.
  { apply (translate_raw_name_loop_escape name (NUL :: rest) [] buf name_len);
      [done|simpl; lia|lia]. }
  simpl. do 3 f_equal.
  rewrite Nat2Z.id.
  destruct (drop (length name) buf) as [|x post] eqn:Hd.
  { apply (f_equal length) in Hd. rewrite length_drop in Hd. simpl in Hd. lia. }
  replace (length name) with (length name + 0)%nat at 1 by lia.
  rewrite insert_app_r. simpl. do 2 f_equal.
  replace (S (length name)) with (length name + 1)%nat by lia.
  rewrite <- drop_drop, Hd. done.
Qed.

(** Decoding a key in which an [@] is followed by a character other
    than [@] and NUL. *)
Lemma translate_raw_name_suffix name ch rest buf name_len :
  cstring name -> plain ch ->
  Z.of_nat (length name) < name_len ->
  Z.of_nat (length buf) = name_len ->
  translate_raw_name (escape name ++ AT :: ch :: rest) buf name_len
  = Ret (Z.of_nat (length name), name ++ NUL :: drop (S (length name)) buf, false).
Proof.
  intros Hc [Hn Ha] Hlt Hbuf. unfold translate_raw_name.
  etrans.
  { apply (translate_raw_name_loop_escape name (AT :: ch :: rest) [] buf name_len);
      [done|simpl; lia|lia]. }
  simpl. rewrite decide_False by done.
  rewrite decide_True by done. do 3 f_equal.
  rewrite Nat2Z.id.
  destruct (drop (length name) buf) as [|x post] eqn:Hd.
  { apply (f_equal length) in Hd. rewrite length_drop in Hd. simpl in Hd. lia. }
  replace (length name) with (length name + 0)%nat at 1 by lia.
  rewrite insert_app_r. simpl. do 2 f_equal.
  replace (S (length name)) with (length name + 1)%nat by lia.
  rewrite <- drop_drop, Hd. done.
Qed.

(** [is_first] is cleared only at an [@] followed by a character other
    than [@] and NUL. *)
Lemma translate_raw_name_loop_false raw buf pos name_len pos' name' :
  translate_raw_name_loop raw buf pos name_len = Ret (pos', name', false) ->
  exists pre ch post, raw = pre ++ AT :: ch :: post /\ plain ch.
Proof.
  remember (length raw) as n eqn:Hn. revert raw buf pos Hn.
  induction n as [n IH] using lt_wf_ind. intros raw buf pos Hn Heq.
  destruct raw as [|ch raw1]; simpl in Heq; [done|].
  destruct (decide (ch = NUL)); [done|].
  destruct (decide (ch = AT)) as [->|].
  - destruct raw1 as [|ch1 raw2]; [done|].
    assert (Hlt : (length raw2 < n)%nat) by (subst n; simpl; lia).
    destruct (decide (ch1 = NUL)) as [->|Hnul].
    + unfold advance in Heq. case_bool_decide; [|done].
      apply (IH _ Hlt _ _ _ eq_refl) in Heq as (pre & c & post & -> & Hp).
      exists (AT :: NUL :: pre), c, post. done.
    + destruct (decide (ch1 ≠ AT)) as [Hat|Hat].
      * exists [], ch1, raw2. done.
      * unfold advance in Heq. case_bool_decide; [|done].
        apply (IH _ Hlt _ _ _ eq_refl) in Heq as (pre & c & post & -> & Hp).
        exists (AT :: ch1 :: pre), c, post. done.
  - assert (Hlt : (length raw1 < n)%nat) by (subst n; simpl; lia).
    unfold advance in Heq. case_bool_decide; [|done].
    apply (IH _ Hlt _ _ _ eq_refl) in Heq as (pre & c & post & -> & Hp).
    exists (ch :: pre), c, post. done.
Qed.

End CodecFacts.

(** C3.  For every logical name (a C string, with room for it in the two
    arrays), encoding it for chunk 0 returns a key, and decoding that key
    gives back exactly the name, terminated in the destination array, its
    length as the return value, and [is_first = true]. *)
Theorem C3_translate_get_raw_first
    (name rest buf : list ascii) (raw_len name_len : Z) :
  cstring name ->
  2 * Z.of_nat (length name) + 1 < raw_len ->
  Z.of_nat (length name) < name_len ->
  Z.of_nat (length buf) = name_len ->
  exists raw name',
    get_raw_xattr_name name 0 raw_len = Ret raw
    /\ translate_raw_name (raw ++ NUL :: rest) buf name_len
       = Ret (Z.of_nat (length name), name', true)
    /\ c_str name' = Ret name.
Proof.
  intros Hc Hraw Hlt Hbuf.
  exists (escape name), (name ++ NUL :: drop (S (length name)) buf).
  split; [by apply get_raw_xattr_name_0|].
  split; [by apply translate_raw_name_first|by apply c_str_app].
Qed.

Lemma C3_translate_get_raw_first_witness :
  exists raw name',
    get_raw_xattr_name (str "a@b@@c") 0 272 = Ret raw
    /\ translate_raw_name (raw ++ NUL :: str "junk") (replicate 272 "x"%char) 272
       = Ret (6, name', true)
    /\ c_str name' = Ret (str "a@b@@c").
Proof.
  apply (C3_translate_get_raw_first
           (str "a@b@@c") (str "junk") (replicate 272 "x"%char) 272 272).
  - apply (bool_decide_unpack _). vm_compute. exact I.
  - simpl. lia.
  - simpl. lia.
  - vm_compute. reflexivity.
Defined.

(** C4.  For every logical name and chunk index [i > 0] (with room for
    the key), encoding returns the escaped name followed by "@i", and
    decoding that key gives back the name with [is_first = false]; the
    name "a@b" has the chunk-1 key "a@@b@1", which decodes to "a@b" with
    [is_first = false]. *)
Theorem C4_translate_get_raw_chained
    (name rest buf : list ascii) (i raw_len name_len : Z) :
  cstring name ->
  0 < i ->
  Z.of_nat (length (escape name) + length (at_decimal i)) < raw_len ->
  Z.of_nat (length name) < name_len ->
  Z.of_nat (length buf) = name_len ->
  (exists raw name',
     get_raw_xattr_name name i raw_len = Ret raw
     /\ translate_raw_name (raw ++ NUL :: rest) buf name_len
        = Ret (Z.of_nat (length name), name', false)
     /\ c_str name' = Ret name)
  /\ get_raw_xattr_name (str "a@b") 1 272 = Ret (str "a@@b@1")
  /\ (exists name',
        translate_raw_name (str "a@@b@1" ++ [NUL]) (replicate 272 NUL) 272
        = Ret (3, name', false)
        /\ c_str name' = Ret (str "a@b")).
Proof.
  intros Hc Hi Hraw Hlt Hbuf. split.
  - exists (escape name ++ at_decimal i),
           (name ++ NUL :: drop (S (length name)) buf).
    split; [apply get_raw_xattr_name_i; [lia|done]|].
    destruct (at_decimal_shape i) as (ch & tl & -> & Hch & _).
    split; [|by apply c_str_app].
    rewrite <- app_assoc. simpl. by apply translate_raw_name_suffix.
  - split; [reflexivity|]. eexists. split; reflexivity.
Qed.

Lemma C4_translate_get_raw_chained_witness :
  (exists raw name',
     get_raw_xattr_name (str "x@y") 12 272 = Ret raw
     /\ translate_raw_name (raw ++ NUL :: []) (replicate 272 NUL) 272
        = Ret (3, name', false)
     /\ c_str name' = Ret (str "x@y"))
  /\ get_raw_xattr_name (str "a@b") 1 272 = Ret (str "a@@b@1")
  /\ (exists name',
        translate_raw_name (str "a@@b@1" ++ [NUL]) (replicate 272 NUL) 272
        = Ret (3, name', false)
        /\ c_str name' = Ret (str "a@b")).
Proof.
  apply (C4_translate_get_raw_chained
           (str "x@y") [] (replicate 272 NUL) 12 272 272).
  - apply (bool_decide_unpack _). vm_compute. exact I.
  - lia.
  - vm_compute. reflexivity.
  - simpl. lia.
  - vm_compute. reflexivity.
Defined.

(** C8 as stated fails: the key "a@" ends in an unescaped [@]; decoding
    it (here followed in memory by the key "b") does not report
    [is_first = false]. *)
Lemma C8_trailing_escape_counterexample :
  translate_raw_name (str "a@" ++ NUL :: str "b" ++ [NUL]) (replicate 8 "x"%char) 8
    = Ret (3, str "axb" ++ NUL :: replicate 4 "x"%char, true)
  /\ ~ (exists pos name',
          translate_raw_name (str "a@" ++ NUL :: str "b" ++ [NUL])
                             (replicate 8 "x"%char) 8
          = Ret (pos, name', false)).
Proof.
  split; [reflexivity|]. intros (pos & name' & Heq).
  vm_compute in Heq. discriminate.
Qed.

(** C8, amended.  For every physical key whose final character is an
    unescaped [@] (an escaped name followed by [@] and the terminator),
    decoding does not take that [@] for the start of a chunk-index
    suffix: whenever it reports [is_first = false], it has met, beyond
    the terminator of the key, an [@] followed by a character that is
    neither [@] nor NUL. *)
Theorem C8_trailing_escape_not_suffix
    (name rest buf : list ascii) (name_len pos : Z) (name' : list ascii) :
  cstring name ->
  translate_raw_name (escape name ++ AT :: NUL :: rest) buf name_len
  = Ret (pos, name', false) ->
  exists pre ch post, rest = pre ++ AT :: ch :: post /\ plain ch.
Proof.
  unfold translate_raw_name. generalize 0 at 1. revert buf.
  induction name as [|ch name IH]; intros buf p Hc Heq.
  - simpl in Heq. unfold advance in Heq. case_bool_decide; [|done].
    by eapply translate_raw_name_loop_false.
  - apply cstring_cons in Hc as [Hch Hc]. simpl in Heq.
    destruct (decide (ch = AT)) as [->|Hat]; simpl in Heq.
    + unfold advance in Heq. case_bool_decide; [|done]. by eapply IH.
    + rewrite decide_False in Heq by done.
      rewrite decide_False in Heq by done.
      unfold advance in Heq. case_bool_decide; [|done]. by eapply IH.
Qed.

Lemma C8_trailing_escape_not_suffix_witness :
  exists pre ch post, str "b@1" ++ [NUL] = pre ++ AT :: ch :: post /\ plain ch.
Proof.
  apply (C8_trailing_escape_not_suffix
           (str "a") (str "b@1" ++ [NUL]) (replicate 8 "x"%char) 8
           3 (str "axb" ++ NUL :: replicate 4 "x"%char)).
  - apply (bool_decide_unpack _). vm_compute. exact I.
  - reflexivity.
Defined.

(** ** Arithmetic of [int] *)

Lemma c_int_small z : - 2 ^ 31 <= z <= INT_MAX -> c_int z = z.
Proof.
  unfold c_int, INT_MAX. intros Hz.
  rewrite Z.mod_small by lia. lia.
Qed.

Lemma c_int_range z : - 2 ^ 31 <= c_int z <= INT_MAX.
Proof.
  unfold c_int, INT_MAX.
  pose proof (Z.mod_pos_bound (z + 2 ^ 31) (2 ^ 32) ltac:(lia)). lia.
Qed.

(** Wrapping a value that is not negative does not make it larger. *)
Lemma c_int_le z : 0 <= z -> c_int z <= z.
Proof.
  unfold c_int. intros Hz.
  pose proof (Z.mod_le (z + 2 ^ 31) (2 ^ 32) ltac:(lia) ltac:(lia)). lia.
Qed.

Lemma c_int_add_l a b : c_int (c_int a + b) = c_int (a + b).
Proof.
  unfold c_int. f_equal.
  replace (a + b + 2 ^ 31) with ((a + 2 ^ 31) + b) by lia.
  replace ((a + 2 ^ 31) mod 2 ^ 32 - 2 ^ 31 + b + 2 ^ 31)
    with ((a + 2 ^ 31) mod 2 ^ 32 + b) by lia.
  by rewrite Zplus_mod_idemp_l.
Qed.

(** ** Running the computations *)

Section ChainFacts.
Context `{Hdr : ChainHeader} {H W : Type} `{Ops : !XattrOps H W}.

Implicit Types (fn : H) (w : W) (tr : list (syscall H)) (st : state H W).
Implicit Types (name key val pre post out rest seen slack : list ascii).

Lemma mbind_Ret {A B} (m : M H W A) (k : A -> M H W B) st a st' :
  m st = Ret (a, st') -> mbind m k st = k a st'.
Proof. unfold mbind. by intros ->. Qed.

Lemma mbind_lift {A B} (o : outcome A) (k : A -> M H W B) st a :
  o = Ret a -> mbind (lift o) k st = k a st.
Proof. unfold mbind, lift. by intros ->. Qed.

Lemma sys_getxattr_probe fn key w tr r d :
  prim_getxattr fn key 0 w = (r, d) ->
  sys_getxattr fn key [] 0 0 (State w tr)
  = Ret ((r, []), State w (tr ++ [Getxattr fn key 0])).
Proof. unfold sys_getxattr. simpl. by intros ->. Qed.

Lemma sys_getxattr_read fn key w tr val pos size r data val' :
  size ≠ 0 ->
  prim_getxattr fn key size w = (r, data) ->
  poke val pos data = Ret val' ->
  sys_getxattr fn key val pos size (State w tr)
  = Ret ((r, val'), State w (tr ++ [Getxattr fn key size])).
Proof.
  unfold sys_getxattr. simpl. intros Hs -> Hp.
  rewrite bool_decide_eq_false_2 by done. by rewrite Hp.
Qed.

Lemma getxattr_len_loop_S fuel fn name i total :
  getxattr_len_loop (S fuel) fn name i total
  = (raw_name <- lift (get_raw_xattr_name name i RAW_NAME_SIZE) ;;
     '(r, _) <- sys_getxattr fn raw_name [] 0 0 ;;
     if bool_decide (i = 0) && bool_decide (r < 0) then mret r
     else if bool_decide (r < 0) then mret total
     else if is_block_len r
          then getxattr_len_loop fuel fn name (i + 1) (c_int (total + r))
     else mret (c_int (total + r))).
Proof. reflexivity. Qed.

(** One round of the length loop. *)
Lemma getxattr_len_loop_step fuel fn name i total w tr r d :
  encodable name i ->
  prim_getxattr fn (key_of name i) 0 w = (r, d) ->
  getxattr_len_loop (S fuel) fn name i total (State w tr)
  = (if bool_decide (i = 0) && bool_decide (r < 0) then mret r
     else if bool_decide (r < 0) then mret total
     else if is_block_len r
          then getxattr_len_loop fuel fn name (i + 1) (c_int (total + r))
     else mret (c_int (total + r)))
      (State w (tr ++ [Getxattr fn (key_of name i) 0])).
Proof.
  intros He Hp. rewrite getxattr_len_loop_S.
  rewrite (mbind_lift _ _ _ _ He).
  rewrite (mbind_Ret _ _ _ _ _ (sys_getxattr_probe _ _ _ _ _ _ Hp)). done.
Qed.

(** The length loop runs through the full chunks. *)
Lemma total_len_probed fn name w i lens :
  probed fn name w i lens -> 0 <= total_len lens.
Proof. induction 1; simpl; lia. Qed.

Lemma getxattr_len_loop_probed fn name w i lens :
  probed fn name w i lens ->
  forall fuel total tr,
    0 <= total -> total + total_len lens <= INT_MAX ->
    getxattr_len_loop (length lens + fuel) fn name i total (State w tr)
    = getxattr_len_loop fuel fn name (i + Z.of_nat (length lens))
        (total + total_len lens)
        (State w (tr ++ probe_calls fn name i (length lens))).
Proof.
  induction 1 as [i|i r d lens He Hp Hr Hb Hrest IH];
    intros fuel total tr Htot Hmax.
  - simpl. by rewrite Z.add_0_r, Z.add_0_r, app_nil_r.
  - change (length (r :: lens) + fuel)%nat with (S (length lens + fuel)).
    pose proof (total_len_probed _ _ _ _ _ Hrest) as Hpos.
    simpl total_len in Hmax.
    rewrite (getxattr_len_loop_step _ _ _ _ _ _ _ _ _ He Hp).
    rewrite (bool_decide_eq_false_2 (r < 0)) by lia.
    rewrite andb_false_r, Hb, c_int_small by lia.
    rewrite IH by lia. simpl.
    rewrite <- app_assoc. simpl. f_equal; lia.
Qed.

Lemma probe_calls_snoc fn name i n :
  probe_calls fn name i (S n)
  = probe_calls fn name i n ++ [Getxattr fn (key_of name (i + Z.of_nat n)) 0].
Proof.
  revert i. induction n as [|n IH]; intros i.
  - simpl. by rewrite Z.add_0_r.
  - change (probe_calls fn name i (S (S n)))
      with (Getxattr fn (key_of name i) 0 :: probe_calls fn name (i + 1) (S n)).
    rewrite IH.
    change (probe_calls fn name i (S n))
      with (Getxattr fn (key_of name i) 0 :: probe_calls fn name (i + 1) n).
    rewrite <- app_comm_cons.
    by replace (i + 1 + Z.of_nat n) with (i + Z.of_nat (S n)) by lia.
Qed.





(** The growing read retries while the result is truncated. *)
Lemma chain_getxattr_buf_loop_grown fuel_rd fn name size st n size' st' :
  grown fuel_rd fn name size st n size' st' ->
  forall fuel bp,
    chain_getxattr_buf_loop (n + fuel) fuel_rd fn name bp size st
    = chain_getxattr_buf_loop fuel fuel_rd fn name bp size' st'.
Proof.
  induction 1 as [|size st buf st1 buf' st2 n size' st' Hb Hr _ IH];
    intros fuel bp; [done|].
  change (S n + fuel)%nat with (S (n + fuel)). simpl.
  rewrite (mbind_Ret _ _ _ _ _ Hb), (mbind_Ret _ _ _ _ _ Hr).
  rewrite (bool_decide_eq_false_2 (- ERANGE > 0)) by (unfold ERANGE; lia).
  rewrite (bool_decide_eq_false_2 (- ERANGE = 0)) by (unfold ERANGE; lia).
  rewrite (bool_decide_eq_true_2 (- ERANGE = - ERANGE)) by done.
  apply IH.
Qed.

(** The last round of the growing read. *)
Lemma chain_getxattr_buf_loop_last fuel fuel_rd fn name bp size st buf st1 r buf' st2 :
  bufferptr_new size st = Ret (buf, st1) ->
  chain_getxattr fuel_rd fn name buf size st1 = Ret ((r, buf'), st2) ->
  r ≠ - ERANGE ->
  chain_getxattr_buf_loop (S fuel) fuel_rd fn name bp size st
  = Ret ((r, if bool_decide (r > 0)
             then match bp with
                  | Some _ => Some (take (Z.to_nat r) buf')
                  | None => None
                  end
             else bp), st2).
Proof.
  intros Hb Hr Hne. simpl.
  rewrite (mbind_Ret _ _ _ _ _ Hb), (mbind_Ret _ _ _ _ _ Hr).
  case_bool_decide; [done|]. case_bool_decide; [by subst|].
  by rewrite bool_decide_eq_false_2.
Qed.

Lemma chain_getxattr_loop_S fuel fn name val i pos size :
  chain_getxattr_loop (S fuel) fn name val i pos size
  = (raw_name <- lift (get_raw_xattr_name name i RAW_NAME_SIZE) ;;
     '(r, val) <- sys_getxattr fn raw_name val pos size ;;
     if bool_decide (i ≠ 0) && bool_decide (r = - ENODATA) then
       mret (Locals i pos pos r size val)
     else if bool_decide (r < 0) then
       mret (Locals i pos r r size val)
     else
       let '(pos, size') :=
         if bool_decide (r > 0) then (c_int (pos + r), size_t (size - r))
         else (pos, size) in
       if bool_decide (size' ≠ 0) && is_block_len r then
         chain_getxattr_loop fuel fn name val (i + 1) pos size'
       else mret (Locals (i + 1) pos 0 r size val)).
Proof. reflexivity. Qed.

Lemma poke_nil val pos :
  0 <= pos <= Z.of_nat (length val) -> poke val pos [] = Ret val.
Proof.
  intros Hpos. unfold poke. rewrite bool_decide_eq_true_2 by (simpl; lia).
  simpl. by rewrite Nat.add_0_r, take_drop.
Qed.

(** A bounded read whose first get fails at chunk 0 returns the failure. *)
Lemma chain_getxattr_chunk0_fails fuel fn name val size w tr e :
  size ≠ 0 ->
  encodable name 0 ->
  prim_getxattr fn (key_of name 0) size w = (e, []) ->
  e < 0 ->
  chain_getxattr (S fuel) fn name val size (State w tr)
  = Ret ((e, val), State w (tr ++ [Getxattr fn (key_of name 0) size])).
Proof.
  intros Hs He Hp Hneg. unfold chain_getxattr.
  rewrite bool_decide_eq_false_2 by done.
  assert (Hloop : chain_getxattr_loop (S fuel) fn name val 0 0 size (State w tr)
                  = Ret (Locals 0 0 e e size val,
                         State w (tr ++ [Getxattr fn (key_of name 0) size]))).
  { assert (Hpoke : poke val 0 [] = Ret val) by (apply poke_nil; lia).
    rewrite chain_getxattr_loop_S, (mbind_lift _ _ _ _ He).
    rewrite (mbind_Ret _ _ _ _ _
               (sys_getxattr_read _ _ _ _ _ _ _ _ _ _ Hs Hp Hpoke)).
    rewrite (bool_decide_eq_false_2 (0 ≠ 0)) by auto.
    by rewrite (bool_decide_eq_true_2 (e < 0)) by done. }
  rewrite (mbind_Ret _ _ _ _ _ Hloop).
  unfold chain_getxattr_end. simpl.
  by rewrite bool_decide_eq_false_2 by lia.
Qed.

(** The block size the writer chooses is one the readers look for. *)
Lemma get_xattr_block_size_is_block size :
  is_block_len (get_xattr_block_size size) = true.
Proof.
  unfold get_xattr_block_size, is_block_len.
  destruct (bool_decide (size <= CHAIN_XATTR_SHORT_LEN_THRESHOLD));
    apply orb_true_iff; [right|left]; by apply bool_decide_eq_true.
Qed.

Lemma is_block_len_pos r : header_ok -> is_block_len r = true -> 0 < r.
Proof.
  intros (_ & Hmax & Hshort). unfold is_block_len.
  rewrite orb_true_iff, !bool_decide_eq_true. lia.
Qed.

Lemma poke_app pre post v :
  (length v <= length post)%nat ->
  poke (pre ++ post) (Z.of_nat (length pre)) v
  = Ret ((pre ++ v) ++ drop (length v) post).
Proof.
  intros Hle. unfold poke.
  rewrite bool_decide_eq_true_2 by (rewrite length_app; lia).
  rewrite Nat2Z.id, take_app_length, drop_app_add. by rewrite <- app_assoc.
Qed.

(** One round of the read loop at a chunk the store holds, with room
    for it. *)
Lemma chain_getxattr_loop_step fuel fn name i size w tr pre post v :
  encodable name i ->
  holds fn w (key_of name i) v ->
  size ≠ 0 -> Z.of_nat (length v) <= size -> size < 2 ^ 64 ->
  (length v <= length post)%nat ->
  Z.of_nat (length pre) + Z.of_nat (length v) <= INT_MAX ->
  chain_getxattr_loop (S fuel) fn name (pre ++ post) i
                      (Z.of_nat (length pre)) size (State w tr)
  = (if bool_decide (size - Z.of_nat (length v) ≠ 0)
        && is_block_len (Z.of_nat (length v))
     then chain_getxattr_loop fuel fn name ((pre ++ v) ++ drop (length v) post)
            (i + 1) (Z.of_nat (length (pre ++ v))) (size - Z.of_nat (length v))
     else mret (Locals (i + 1) (Z.of_nat (length (pre ++ v))) 0
                       (Z.of_nat (length v)) size
                       ((pre ++ v) ++ drop (length v) post)))
      (State w (tr ++ [Getxattr fn (key_of name i) size])).
Proof.
  intros He [_ Hrd] Hs Hle Hlt Hroom Hint.
  rewrite chain_getxattr_loop_S, (mbind_lift _ _ _ _ He).
  rewrite (mbind_Ret _ _ _ _ _
             (sys_getxattr_read _ _ _ _ _ _ _ _ _ _ Hs (Hrd _ Hs Hle)
                                (poke_app _ _ _ Hroom))).
  rewrite (bool_decide_eq_false_2 (Z.of_nat (length v) = - ENODATA))
    by (unfold ENODATA; lia).
  rewrite andb_false_r.
  rewrite (bool_decide_eq_false_2 (Z.of_nat (length v) < 0)) by lia.
  rewrite length_app, Nat2Z.inj_add.
  destruct (decide (Z.of_nat (length v) > 0)) as [Hpos|Hpos].
  - rewrite (bool_decide_eq_true_2 _ Hpos). unfold size_t.
    rewrite c_int_small by lia. by rewrite Z.mod_small by lia.
  - rewrite (bool_decide_eq_false_2 _ Hpos).
    by replace (Z.of_nat (length v)) with 0 by lia; rewrite Z.add_0_r, Z.sub_0_r.
Qed.

(** The read loop over full chunks that fill the capacity exactly. *)
Lemma chain_getxattr_loop_exact fn name w i vs :
  header_ok ->
  stored fn name w i vs ->
  vs ≠ [] ->
  Forall (fun v => is_block_len (Z.of_nat (length v)) = true) vs ->
  forall fuel pre post tr size,
    size = Z.of_nat (length (concat vs)) ->
    Z.of_nat (length pre) + size <= INT_MAX ->
    Z.of_nat (length post) = size ->
    (length vs <= fuel)%nat ->
    exists r cs,
      chain_getxattr_loop fuel fn name (pre ++ post) i
                          (Z.of_nat (length pre)) size (State w tr)
      = Ret (Locals (i + Z.of_nat (length vs)) (Z.of_nat (length pre) + size)
                    0 r cs (pre ++ concat vs),
             State w (tr ++ read_calls fn name i size vs))
      /\ 0 <= r /\ is_block_len cs = true.
Proof.
  intros Hok. induction 1 as [i|i v vs He Hh Hst IH]; [done|].
  intros _ Hblk fuel pre post tr size Hsize Hlt Hpost Hfuel.
  inversion Hblk as [|? ? Hv Hvs]; subst.
  pose proof (is_block_len_pos _ Hok Hv) as Hvpos.
  destruct fuel as [|fuel]; [simpl in Hfuel; lia|].
  simpl concat in *. rewrite length_app in *.
  assert (INT_MAX < 2 ^ 64) by (unfold INT_MAX; lia).
  rewrite (chain_getxattr_loop_step _ _ _ _ _ _ _ _ _ _ He Hh) by lia.
  rewrite Hv, andb_true_r.
  destruct vs as [|v' vs].
  - simpl in *. rewrite bool_decide_eq_false_2 by lia.
    exists (Z.of_nat (length v)), (Z.of_nat (length v + 0)%nat).
    split; [|split; [lia|by rewrite Nat.add_0_r]].
    unfold mret. rewrite length_app, app_nil_r.
    rewrite drop_ge by lia. rewrite app_nil_r.
    eq_result.
  - inversion Hvs as [|? ? Hv' _]; subst.
    pose proof (is_block_len_pos _ Hok Hv') as Hv'pos.
    assert (Hrest : Z.of_nat (length (concat (v' :: vs))) > 0).
    { simpl. rewrite length_app. lia. }
    rewrite bool_decide_eq_true_2 by lia.
    destruct (IH ltac:(done) Hvs fuel (pre ++ v) (drop (length v) post)
                 (tr ++ [Getxattr fn (key_of name i)
                           (Z.of_nat (length v + length (concat (v' :: vs))))])
                 (Z.of_nat (length v + length (concat (v' :: vs)))
                  - Z.of_nat (length v)))
      as (r & cs & Heq & Hr & Hcs).
    { lia. } { rewrite length_app. lia. } { rewrite length_drop. lia. }
    { simpl in *. lia. }
    exists r, cs. split; [|done]. rewrite Heq.
    rewrite <- !app_assoc. simpl read_calls.
    eq_result.
Qed.

(** More fuel does not change a result of the length loop. *)
Lemma getxattr_len_loop_more fuel k fn name i total st res :
  getxattr_len_loop fuel fn name i total st = Ret res ->
  getxattr_len_loop (fuel + k) fn name i total st = Ret res.
Proof.
  revert i total st. induction fuel as [|fuel IH]; intros i total st; [done|].
  change (S fuel + k)%nat with (S (fuel + k)).
  rewrite !getxattr_len_loop_S. unfold mbind, lift.
  destruct (get_raw_xattr_name name i RAW_NAME_SIZE) as [raw| | |]; try done.
  simpl. destruct (sys_getxattr fn raw [] 0 0 st) as [[[r v] st1]| | |]; try done.
  simpl. repeat case_match; auto.
Qed.

(** The full chunks the store holds are seen by the length-only gets. *)
Lemma stored_probed fn name w i vs :
  stored fn name w i vs ->
  Forall (fun v => is_block_len (Z.of_nat (length v)) = true) vs ->
  probed fn name w i (map (fun v => Z.of_nat (length v)) vs).
Proof.
  induction 1 as [i|i v vs He [[d Hd] _] _ IH]; intros Hblk; simpl.
  - apply probed_nil.
  - inversion Hblk; subst. eapply probed_cons; eauto. lia.
Qed.

Lemma total_len_lengths (vs : list (list ascii)) :
  total_len (map (fun v => Z.of_nat (length v)) vs)
  = Z.of_nat (length (concat vs)).
Proof.
  induction vs as [|v vs IH]; simpl; [done|]. rewrite length_app, IH. lia.
Qed.

Lemma chain_getxattr_end_break fn name i pos r cs val st :
  r < 0 ->
  chain_getxattr_end fn name (Locals i pos pos r cs val) st = Ret ((pos, val), st).
Proof.
  intros Hr. unfold chain_getxattr_end. simpl.
  by rewrite bool_decide_eq_false_2 by lia.
Qed.

(** After the loop: the zero-length get at the next index finds nothing
    of positive length. *)
Lemma chain_getxattr_end_done fn name i pos r cs val w tr p d :
  0 <= r ->
  encodable name i ->
  prim_getxattr fn (key_of name i) 0 w = (p, d) ->
  p <= 0 ->
  exists tr',
    chain_getxattr_end fn name (Locals i pos 0 r cs val) (State w tr)
    = Ret ((pos, val), State w tr').
Proof.
  intros Hr He Hp Hle. unfold chain_getxattr_end. simpl.
  rewrite bool_decide_eq_true_2 by lia.
  destruct (is_block_len cs); [|by eexists].
  rewrite (mbind_lift _ _ _ _ He).
  rewrite (mbind_Ret _ _ _ _ _ (sys_getxattr_probe _ _ _ _ _ _ Hp)).
  rewrite bool_decide_eq_false_2 by lia. by eexists.
Qed.

Lemma stored_cons_inv fn name w i v vs :
  stored fn name w i (v :: vs) ->
  encodable name i /\ holds fn w (key_of name i) v
  /\ stored fn name w (i + 1) vs.
Proof. by inversion 1. Qed.

(** A bounded read with room for the whole chain: the loop and the
    statements after it, from any chunk of the chain on. *)
Lemma chain_getxattr_whole fn name w v :
  header_ok ->
  forall vs i pre post size tr fuel,
    0 <= i ->
    stored fn name w i (vs ++ [v]) ->
    Forall (fun v => is_block_len (Z.of_nat (length v)) = true) vs ->
    encodable name (i + Z.of_nat (length vs) + 1) ->
    absent fn w (key_of name (i + Z.of_nat (length vs) + 1)) ->
    Z.of_nat (length (concat (vs ++ [v]))) <= size ->
    size ≠ 0 -> size < 2 ^ 64 ->
    Z.of_nat (length post) = size ->
    (length vs + 1 < fuel)%nat ->
    Z.of_nat (length pre) + Z.of_nat (length (concat (vs ++ [v])))
    <= INT_MAX ->
    exists tr',
      mbind (chain_getxattr_loop fuel fn name (pre ++ post) i
                                 (Z.of_nat (length pre)) size)
            (chain_getxattr_end fn name) (State w tr)
      = Ret ((Z.of_nat (length pre) + Z.of_nat (length (concat (vs ++ [v]))),
              (pre ++ concat (vs ++ [v]))
              ++ drop (length (concat (vs ++ [v]))) post),
             State w tr').
Proof.
  intros Hok. induction vs as [|v0 vs IH];
    intros i pre post size tr fuel Hi Hst Hblk He1 Habs Hsize Hs0 Hlt Hpost Hfuel
           Hint.
  - simpl in *. rewrite app_nil_r in *. rewrite Z.add_0_r in *.
    destruct (stored_cons_inv _ _ _ _ _ _ Hst) as (He & Hh & _).
    destruct fuel as [|[|fuel]]; [lia|lia|].
    unfold mbind at 1.
    rewrite (chain_getxattr_loop_step _ _ _ _ _ _ _ _ _ _ He Hh) by lia.
    destruct (bool_decide _ && is_block_len _) eqn:Hcond.
    + apply andb_true_iff in Hcond as [Hrest _].
      apply bool_decide_eq_true in Hrest.
      rewrite chain_getxattr_loop_S, (mbind_lift _ _ _ _ He1).
      assert (Hpoke : poke ((pre ++ v) ++ drop (length v) post)
                           (Z.of_nat (length (pre ++ v))) []
                      = Ret ((pre ++ v) ++ drop (length v) post)).
      { apply poke_nil. rewrite !length_app. lia. }
      rewrite (mbind_Ret _ _ _ _ _
                 (sys_getxattr_read _ _ _ _ _ _ _ _ _ _ Hrest (Habs _) Hpoke)).
      rewrite (bool_decide_eq_true_2 (i + 1 ≠ 0)) by lia.
      rewrite (bool_decide_eq_true_2 (- ENODATA = - ENODATA)) by done.
      simpl. rewrite chain_getxattr_end_break by (unfold ENODATA; lia).
      eexists. eq_result.
    + simpl.
      destruct (chain_getxattr_end_done fn name (i + 1)
                  (Z.of_nat (length (pre ++ v))) (Z.of_nat (length v)) size
                  ((pre ++ v) ++ drop (length v) post) w
                  (tr ++ [Getxattr fn (key_of name i) size])
                  (- ENODATA) [] ltac:(lia) He1 (Habs 0)
                  ltac:(unfold ENODATA; lia)) as [tr' Hend].
      rewrite Hend. eexists. eq_result.
  - simpl app in Hst.
    destruct (stored_cons_inv _ _ _ _ _ _ Hst) as (He & Hh & Hst').
    apply Forall_cons in Hblk as [Hv0 Hvs].
    pose proof (is_block_len_pos _ Hok Hv0) as Hv0pos.
    destruct fuel as [|fuel]; [lia|].
    simpl concat in *. rewrite length_app in Hsize, Hint.
    unfold mbind at 1.
    rewrite (chain_getxattr_loop_step _ _ _ _ _ _ _ _ _ _ He Hh) by lia.
    rewrite Hv0, andb_true_r.
    destruct (decide (size - Z.of_nat (length v0) = 0)) as [Hz|Hnz].
    + rewrite bool_decide_eq_false_2 by lia.
      assert (Hnil : concat (vs ++ [v]) = []).
      { apply nil_length_inv. lia. }
      assert (vs = []) as ->.
      { destruct vs as [|v1 vs]; [done|].
        apply Forall_cons in Hvs as [Hv1 _].
        pose proof (is_block_len_pos _ Hok Hv1).
        simpl in Hnil. apply (f_equal length) in Hnil.
        rewrite length_app in Hnil. simpl in Hnil. lia. }
      simpl in Hnil. rewrite app_nil_r in Hnil. subst v.
      destruct (stored_cons_inv _ _ _ _ _ _ Hst') as (He' & [[d Hd] _] & _).
      simpl.
      destruct (chain_getxattr_end_done fn name (i + 1)
                  (Z.of_nat (length (pre ++ v0))) (Z.of_nat (length v0)) size
                  ((pre ++ v0) ++ drop (length v0) post) w
                  (tr ++ [Getxattr fn (key_of name i) size])
                  _ d ltac:(lia) He' Hd ltac:(simpl; lia)) as [tr' Hend].
      rewrite Hend. eexists. rewrite !app_nil_r. eq_result.
    + rewrite bool_decide_eq_true_2 by done.
      destruct (IH (i + 1) (pre ++ v0) (drop (length v0) post)
                   (size - Z.of_nat (length v0))
                   (tr ++ [Getxattr fn (key_of name i) size]) fuel)
        as [tr' Hrun]; try done; try lia.
      { by replace (i + 1 + Z.of_nat (length vs) + 1)
          with (i + Z.of_nat (length (v0 :: vs)) + 1) by (simpl length; lia). }
      { by replace (i + 1 + Z.of_nat (length vs) + 1)
          with (i + Z.of_nat (length (v0 :: vs)) + 1) by (simpl length; lia). }
      { rewrite length_drop. lia. }
      { simpl in Hfuel. lia. }
      { rewrite length_app. lia. }
      unfold mbind in Hrun at 1. rewrite Hrun. exists tr'.
      rewrite drop_drop, <- !app_assoc, !length_app.
      eq_result.
Qed.

Lemma stored_app_inv fn name w i vs ws :
  stored fn name w i (vs ++ ws) ->
  stored fn name w i vs /\ stored fn name w (i + Z.of_nat (length vs)) ws.
Proof.
  revert i. induction vs as [|v vs IH]; intros i Hst; simpl in *.
  - rewrite Z.add_0_r. split; [apply stored_nil|done].
  - destruct (stored_cons_inv _ _ _ _ _ _ Hst) as (He & Hh & Hst').
    destruct (IH _ Hst') as [Hvs Hws]. split; [by apply stored_cons|].
    by replace (i + Z.of_nat (S (length vs)))
      with (i + 1 + Z.of_nat (length vs)) by lia.
Qed.

(** The length-only probe of a whole chain reports its total length. *)
Lemma getxattr_len_whole fn name w tr vs v fuel :
  stored fn name w 0 (vs ++ [v]) ->
  Forall (fun v => is_block_len (Z.of_nat (length v)) = true) vs ->
  encodable name (Z.of_nat (length vs) + 1) ->
  absent fn w (key_of name (Z.of_nat (length vs) + 1)) ->
  (length vs + 1 < fuel)%nat ->
  Z.of_nat (length (concat (vs ++ [v]))) <= INT_MAX ->
  exists tr',
    getxattr_len fuel fn name (State w tr)
    = Ret (Z.of_nat (length (concat (vs ++ [v]))), State w tr').
Proof.
  intros Hst Hblk He1 Habs Hfuel Hint.
  rewrite concat_app, length_app in Hint. simpl in Hint.
  rewrite app_nil_r in Hint.
  destruct (stored_app_inv _ _ _ _ _ _ Hst) as [Hvs Hv].
  rewrite Z.add_0_l in Hv.
  destruct (stored_cons_inv _ _ _ _ _ _ Hv) as (He & [[d Hd] _] & _).
  unfold getxattr_len.
  replace fuel
    with (length (map (fun v => Z.of_nat (length v)) vs)
          + S (S (fuel - length vs - 2)))%nat
    by (rewrite length_map; lia).
  rewrite (getxattr_len_loop_probed _ _ _ _ _ (stored_probed _ _ _ _ _ Hvs Hblk))
    by (rewrite ?total_len_lengths; lia).
  rewrite length_map, total_len_lengths, !Z.add_0_l.
  rewrite (getxattr_len_loop_step _ _ _ _ _ _ _ _ _ He Hd).
  rewrite (bool_decide_eq_false_2 (Z.of_nat (length v) < 0)) by lia.
  rewrite andb_false_r, c_int_small by lia.
  rewrite concat_app, length_app. simpl concat. rewrite app_nil_r.
  destruct (is_block_len (Z.of_nat (length v))).
  - rewrite (getxattr_len_loop_step _ _ _ _ _ _ _ _ _ He1 (Habs 0)).
    rewrite (bool_decide_eq_false_2 (Z.of_nat (length vs) + 1 = 0)) by lia.
    rewrite (bool_decide_eq_true_2 (- ENODATA < 0)) by (unfold ENODATA; lia).
    simpl. eexists. unfold mret. eq_result.
  - eexists. unfold mret. eq_result.
Qed.

(** *** Listing *)

Lemma key_of_cstring name i : cstring name -> cstring (key_of name i).
Proof.
  intros Hc. unfold key_of. apply cstring_app. split.
  - by apply cstring_escape.
  - case_bool_decide; [by unfold cstring; apply not_elem_of_nil|].
    apply at_decimal_cstring.
Qed.

Lemma encodable_length name i :
  header_ok -> encodable name i -> Z.of_nat (length name) < RAW_NAME_SIZE.
Proof.
  intros (Hmax & _) He. apply get_raw_xattr_name_inv in He as [_ Hb].
  destruct name as [|ch name].
  - unfold RAW_NAME_SIZE. simpl. lia.
  - specialize (Hb ltac:(done)).
    pose proof (length_escape_le (ch :: name)). lia.
Qed.

(** Decoding the key of a chunk in the key stream. *)
Lemma translate_raw_name_key name i rest buf :
  header_ok -> cstring name -> encodable name i ->
  Z.of_nat (length buf) = RAW_NAME_SIZE ->
  translate_raw_name (key_of name i ++ NUL :: rest) buf RAW_NAME_SIZE
  = Ret (Z.of_nat (length name), name ++ NUL :: drop (S (length name)) buf,
         bool_decide (i = 0)).
Proof.
  intros Hok Hc He Hbuf. pose proof (encodable_length _ _ Hok He) as Hlen.
  unfold key_of. case_bool_decide.
  - rewrite app_nil_r. by apply translate_raw_name_first.
  - destruct (at_decimal_shape i) as (ch & tl & -> & Hch & _).
    rewrite <- app_assoc. simpl. by apply translate_raw_name_suffix.
Qed.

Lemma strcpy_name out rest name junk' :
  cstring name ->
  (length name + 1 <= length rest)%nat ->
  strcpy (out ++ rest) (Z.of_nat (length out)) (name ++ NUL :: junk')
  = Ret ((out ++ name ++ [NUL]) ++ drop (length name + 1) rest).
Proof.
  intros Hc Hroom. unfold strcpy. rewrite c_str_app by done. simpl.
  rewrite poke_app by (rewrite length_app; simpl; lia).
  by rewrite length_app.
Qed.

Lemma logical_names_cons name i es :
  logical_names ((name, i) :: es)
  = (if bool_decide (i = 0) then name ++ [NUL] else []) ++ logical_names es.
Proof.
  unfold logical_names. rewrite filter_cons. simpl.
  case_bool_decide.
  - rewrite decide_True by done. simpl. by rewrite <- app_assoc.
  - by rewrite decide_False by done.
Qed.

Lemma physical_keys_cons name i es :
  physical_keys ((name, i) :: es)
  = key_of name i ++ NUL :: physical_keys es.
Proof. unfold physical_keys. simpl. by rewrite <- app_assoc. Qed.

Lemma physical_keys_length es :
  (length es <= length (physical_keys es))%nat.
Proof.
  induction es as [|[name i] es IH]; [done|].
  rewrite physical_keys_cons, length_app. simpl. lia.
Qed.

Lemma logical_names_length es :
  (length (logical_names es) <= length (physical_keys es))%nat.
Proof.
  induction es as [|[name i] es IH]; [done|].
  rewrite logical_names_cons, physical_keys_cons, !length_app. simpl.
  unfold key_of. rewrite length_app.
  pose proof (length_escape_le name).
  case_bool_decide; simpl; rewrite ?length_app; simpl; lia.
Qed.

Lemma physical_keys_app es es' :
  physical_keys (es ++ es') = physical_keys es ++ physical_keys es'.
Proof. unfold physical_keys. by rewrite map_app, concat_app. Qed.

(** The listing loop over the first keys of a stream, with room for
    their names. *)
Lemma chain_listxattr_loop_prefix es :
  header_ok ->
  Forall (fun e => cstring (fst e) /\ encodable (fst e) (snd e)) es ->
  forall fuel seen slack out rest end_ st,
    (length (logical_names es) <= length rest)%nat ->
    Z.of_nat (length seen + length (physical_keys es)) <= end_ ->
    Z.of_nat (length (physical_keys es)) <= INT_MAX ->
    chain_listxattr_loop (length es + fuel)
      (seen ++ physical_keys es ++ slack)
      (Z.of_nat (length seen)) end_
      (out ++ rest) (Z.of_nat (length out))
      (Z.of_nat (length out + length rest)) st
    = chain_listxattr_loop fuel
        (seen ++ physical_keys es ++ slack)
        (Z.of_nat (length seen + length (physical_keys es))) end_
        ((out ++ logical_names es) ++ drop (length (logical_names es)) rest)
        (Z.of_nat (length out + length (logical_names es)))
        (Z.of_nat (length out + length rest)) st.
Proof.
  intros Hok. induction 1 as [|[name i] es [Hc He] Hes IH];
    intros fuel seen slack out rest end_ st Hroom Hend Hint.
  - simpl. by rewrite !app_nil_r, !Nat.add_0_r.
  - simpl in Hc, He.
    rewrite physical_keys_cons in *. rewrite logical_names_cons in *.
    rewrite length_app in Hend, Hint. simpl length in Hend, Hint.
    change (length ((name, i) :: es) + fuel)%nat
      with (S (length es + fuel)).
    simpl chain_listxattr_loop.
    rewrite bool_decide_eq_true_2 by lia.
    unfold mbind at 1. unfold fresh at 1. simpl obind.
    rewrite (bool_decide_eq_true_2 (0 <= _)) by lia.
    rewrite Nat2Z.id, drop_app_length, <- app_assoc. simpl app.
    rewrite (mbind_lift _ _ _ _ (c_str_app _ _ (key_of_cstring _ i Hc))).
    assert (Hbuf : Z.of_nat (length (resize (Z.to_nat RAW_NAME_SIZE) NUL
                                            (junk (world st))))
                   = RAW_NAME_SIZE).
    { rewrite length_resize. pose proof (encodable_length _ _ Hok He). lia. }
    rewrite (mbind_lift _ _ _ _
               (translate_raw_name_key name i _ _ Hok Hc He Hbuf)).
    rewrite (c_int_small (Z.of_nat (length (key_of name i)))) by lia.
    rewrite c_int_small by lia.
    replace (seen ++ key_of name i ++ NUL :: physical_keys es ++ slack)
      with ((seen ++ key_of name i ++ [NUL]) ++ physical_keys es ++ slack)
      by (by rewrite <- !app_assoc).
    replace (Z.of_nat (length seen) + (Z.of_nat (length (key_of name i)) + 1))
      with (Z.of_nat (length (seen ++ key_of name i ++ [NUL])))
      by (rewrite !length_app; simpl; lia).
    replace (Z.of_nat (length seen + length (key_of name i ++ NUL :: physical_keys es)))
      with (Z.of_nat (length (seen ++ key_of name i ++ [NUL])
                      + length (physical_keys es)))
      by (rewrite !length_app; simpl; lia).
    case_bool_decide as Hi.
    + rewrite !length_app in Hroom. simpl in Hroom.
      rewrite bool_decide_eq_false_2 by lia.
      rewrite (mbind_lift _ _ _ _ (strcpy_name out rest name _ Hc ltac:(lia))).
      replace (Z.of_nat (length out) + Z.of_nat (length name) + 1)
        with (Z.of_nat (length (out ++ name ++ [NUL])))
        by (rewrite !length_app; simpl; lia).
      replace (Z.of_nat (length out + length rest))
        with (Z.of_nat (length (out ++ name ++ [NUL])
                        + length (drop (length name + 1) rest)))
        by (rewrite !length_app, length_drop; simpl; lia).
      rewrite IH; [|rewrite ?length_drop; simpl in *; lia
                   |rewrite !length_app in *; simpl in *; lia|lia].
      rewrite drop_drop, <- !app_assoc, !length_app. simpl.
      f_equal; try lia.
      by replace (length name + 1 + length (logical_names es))%nat
        with (length name + S (length (logical_names es)))%nat by lia.
    + simpl app in *.
      rewrite IH; [|simpl in *; lia|rewrite !length_app in *; simpl in *; lia
                   |lia].
      done.
Qed.

(** The listing loop over a stream of chained keys, with room for the
    names. *)
Lemma chain_listxattr_loop_keys es :
  header_ok ->
  Forall (fun e => cstring (fst e) /\ encodable (fst e) (snd e)) es ->
  forall fuel seen slack out rest st,
    (length (logical_names es) <= length rest)%nat ->
    (length es <= fuel)%nat ->
    Z.of_nat (length (physical_keys es)) <= INT_MAX ->
    Z.of_nat (length out + length (logical_names es)) <= INT_MAX ->
    chain_listxattr_loop fuel (seen ++ physical_keys es ++ slack)
      (Z.of_nat (length seen))
      (Z.of_nat (length seen + length (physical_keys es)))
      (out ++ rest) (Z.of_nat (length out))
      (Z.of_nat (length out + length rest)) st
    = Ret ((Z.of_nat (length out + length (logical_names es)),
            (out ++ logical_names es) ++ drop (length (logical_names es)) rest),
           st).
Proof.
  intros Hok Hes fuel seen slack out rest st Hroom Hfuel Hint Hout.
  replace fuel with (length es + (fuel - length es))%nat by lia.
  rewrite (chain_listxattr_loop_prefix es Hok Hes) by (done || lia).
  assert (Hret : forall n, chain_listxattr_loop n
      (seen ++ physical_keys es ++ slack)
      (Z.of_nat (length seen + length (physical_keys es)))
      (Z.of_nat (length seen + length (physical_keys es)))
      ((out ++ logical_names es) ++ drop (length (logical_names es)) rest)
      (Z.of_nat (length out + length (logical_names es)))
      (Z.of_nat (length out + length rest)) st
    = Ret ((c_int (Z.of_nat (length out + length (logical_names es))),
            (out ++ logical_names es) ++ drop (length (logical_names es)) rest),
           st)).
  { intros n. destruct n; simpl; by rewrite bool_decide_eq_false_2 by lia. }
  rewrite Hret, c_int_small by lia. done.
Qed.

Lemma sys_listxattr_probe fn w tr r d :
  prim_listxattr fn 0 w = (r, d) ->
  sys_listxattr fn [] 0 (State w tr)
  = Ret ((r, []), State w (tr ++ [Listxattr fn 0])).
Proof. unfold sys_listxattr. simpl. by intros ->. Qed.

(** The bound on the rounds of the listing loop is not reached while
    the buffer is not longer than [INT_MAX]: each round moves [p]
    forward. *)
Lemma c_str_fuel buf : c_str buf ≠ OutOfFuel.
Proof.
  induction buf as [|ch buf IH]; simpl; [done|].
  destruct (decide (ch = NUL)); [done|]. by destruct (c_str buf).
Qed.

Lemma translate_raw_name_loop_fuel raw buf pos name_len :
  translate_raw_name_loop raw buf pos name_len ≠ OutOfFuel.
Proof.
  remember (length raw) as n eqn:Hn. revert raw buf pos Hn.
  induction n as [n IH] using lt_wf_ind. intros raw buf pos Hn.
  destruct raw as [|ch raw1]; simpl; [done|].
  destruct (decide (ch = NUL)); [done|].
  destruct (decide (ch = AT)).
  - destruct raw1 as [|ch1 raw2]; [done|].
    assert (Hlt : (length raw2 < n)%nat) by (subst n; simpl; lia).
    destruct (decide (ch1 = NUL)); [|destruct (decide (ch1 ≠ AT)); [done|]];
      unfold advance; case_bool_decide; try done; by eapply IH.
  - assert (Hlt : (length raw1 < n)%nat) by (subst n; simpl; lia).
    unfold advance; case_bool_decide; try done; by eapply IH.
Qed.

Lemma strcpy_fuel buf off src : strcpy buf off src ≠ OutOfFuel.
Proof.
  unfold strcpy. pose proof (c_str_fuel src).
  destruct (c_str src); simpl; try done. unfold poke. by case_bool_decide.
Qed.

Lemma c_str_length buf s : c_str buf = Ret s -> (length s < length buf)%nat.
Proof.
  revert s. induction buf as [|ch buf IH]; intros s; simpl; [done|].
  destruct (decide (ch = NUL)); [intros [= <-]; simpl; lia|].
  destruct (c_str buf) as [s'| | |]; simpl; try done.
  intros [= <-]. specialize (IH _ eq_refl). simpl. lia.
Qed.

Lemma poke_length buf off data buf' :
  poke buf off data = Ret buf' -> length buf' = length buf.
Proof.
  unfold poke. case_bool_decide as Hb; [|done]. intros [= <-].
  rewrite !length_app, length_take, length_drop. lia.
Qed.

Lemma chain_listxattr_loop_fuel fuel full_buf p end_ names dest dest_end st :
  Z.of_nat (length full_buf) <= INT_MAX ->
  end_ - p <= Z.of_nat fuel ->
  chain_listxattr_loop fuel full_buf p end_ names dest dest_end st ≠ OutOfFuel.
Proof.
  intros Hbuf. revert p names dest st.
  induction fuel as [|fuel IH]; intros p names dest st Hle.
  - simpl. by rewrite bool_decide_eq_false_2 by lia.
  - simpl. case_bool_decide; [|done].
    unfold mbind at 1, fresh at 1. simpl obind.
    unfold mbind at 1, lift at 1.
    case_bool_decide as Hp; [|done].
    pose proof (c_str_fuel (drop (Z.to_nat p) full_buf)) as Hc.
    destruct (c_str (drop (Z.to_nat p) full_buf)) as [attr| | |] eqn:Ec;
      try done.
    apply c_str_length in Ec. rewrite length_drop in Ec.
    simpl obind. unfold mbind at 1, lift at 1.
    pose proof (translate_raw_name_loop_fuel (drop (Z.to_nat p) full_buf)
                  (resize (Z.to_nat RAW_NAME_SIZE) NUL (junk (world st)))
                  0 RAW_NAME_SIZE) as Ht.
    unfold translate_raw_name.
    destruct (translate_raw_name_loop _ _ _ _) as [[[name_len name] is_first]| | |];
      try done.
    rewrite (c_int_small (Z.of_nat (length attr))) by lia.
    rewrite c_int_small by lia.
    simpl obind. destruct is_first.
    + case_bool_decide; [done|].
      unfold mbind at 1, lift at 1.
      pose proof (strcpy_fuel names dest name) as Hs.
      destruct (strcpy names dest name); try done.
      simpl obind. apply IH. lia.
    + apply IH. lia.
Qed.

(** The listing comes to an end when twice the size the primitive
    reports fits [int]. *)
Lemma chain_listxattr_fuel fn names len st :
  (forall r d, prim_listxattr fn 0 (world st) = (r, d) -> r < 2 ^ 30) ->
  chain_listxattr fn names len st ≠ OutOfFuel.
Proof.
  intros Hsmall. unfold chain_listxattr. case_bool_decide.
  - clear Hsmall. unfold mbind, sys_listxattr. destruct (prim_listxattr _ _ _).
    simpl. case_bool_decide; [done|]. unfold poke. by case_bool_decide.
  - unfold mbind at 1, sys_listxattr at 1.
    destruct (prim_listxattr fn 0 (world st)) as [r d] eqn:Ep0.
    specialize (Hsmall _ _ eq_refl).
    simpl. case_bool_decide; [done|].
    assert (Htot : size_t (c_int (r * 2)) = r * 2).
    { rewrite c_int_small by (unfold INT_MAX; lia).
      unfold size_t. apply Z.mod_small. lia. }
    rewrite Htot.
    unfold mbind at 1, malloc at 1. simpl.
    destruct (malloc_ok _ _); [|done]. simpl.
    unfold mbind at 1, sys_listxattr at 1. simpl.
    destruct (prim_listxattr fn (r * 2) (world st)) as [r' d'].
    assert (Hlen : Z.of_nat (length (resize (Z.to_nat (r * 2)) NUL
                                            (junk (world st)))) <= INT_MAX).
    { rewrite length_resize. unfold INT_MAX. lia. }
    case_bool_decide; simpl.
    + case_bool_decide; [done|]. apply chain_listxattr_loop_fuel; [done|lia].
    + destruct (poke _ 0 d') as [fb| | |] eqn:Epk; try done;
        [|unfold poke in Epk; by case_bool_decide]. simpl.
      apply poke_length in Epk.
      case_bool_decide; [done|].
      apply chain_listxattr_loop_fuel; [by rewrite Epk|lia].
Qed.

End ChainFacts.

(** C5.  With capacity 0 the read is the length-only probe.  When the
    length-only gets of the chunks 0, 1, ... report the block lengths
    [lens] and the next one reports [r], a failure or a length that is
    not a block length, the probe returns: [r] itself when it is the
    failure of chunk 0; the sum of the lengths before it when it is a
    failure at a later index; else the sum of all lengths up to and
    including [r].  It has made exactly these gets.  The sum is the one
    the code computes as long as it fits [int], which the lengths are
    taken to do.  (The descriptor variant is this function at the
    primitives of a descriptor.) *)
Theorem C5_length_probe `{Hdr : ChainHeader} {H W : Type} `{Ops : !XattrOps H W}
    (fn : H) (name val : list ascii) (w : W) (tr : list (syscall H))
    (lens : list Z) (r : Z) (d : list ascii) (fuel : nat) :
  probed fn name w 0 lens ->
  encodable name (Z.of_nat (length lens)) ->
  prim_getxattr fn (key_of name (Z.of_nat (length lens))) 0 w = (r, d) ->
  r < 0 \/ is_block_len r = false ->
  total_len lens + Z.max 0 r <= INT_MAX ->
  (length lens < fuel)%nat ->
  chain_getxattr fuel fn name val 0 (State w tr)
  = Ret ((if bool_decide (r < 0)
          then match lens with [] => r | _ => total_len lens end
          else total_len lens + r,
          val),
         State w (tr ++ probe_calls fn name 0 (S (length lens)))).
Proof.
  intros Hpr He Hp Hlast Hint Hfuel.
  pose proof (total_len_probed _ _ _ _ _ Hpr) as Hsum.
  unfold chain_getxattr. rewrite bool_decide_eq_true_2 by done.
  unfold getxattr_len.
  replace fuel with (length lens + S (fuel - length lens - 1))%nat by lia.
  unfold mbind.
  rewrite (getxattr_len_loop_probed _ _ _ _ _ Hpr) by lia.
  rewrite (getxattr_len_loop_step _ _ _ _ _ _ _ _ _ He Hp).
  rewrite probe_calls_snoc. rewrite !Z.add_0_l, app_assoc.
  destruct (decide (r < 0)) as [Hneg|Hneg].
  - rewrite !(bool_decide_eq_true_2 (r < 0)) by done.
    destruct lens as [|r0 lens]; simpl length.
    + done.
    + rewrite (bool_decide_eq_false_2 (Z.of_nat (S (length lens)) = 0)) by lia.
      done.
  - rewrite !(bool_decide_eq_false_2 (r < 0)) by done.
    rewrite andb_false_r, c_int_small by lia.
    destruct Hlast as [? | ->]; [lia|]. done.
Qed.

Lemma C5_length_probe_witness :
  chain_fgetxattr 5 0 (str "a@b") [] 0 (Store.init Store.sample)
  = Ret ((255, []),
         State Store.sample
           [Getxattr 0 (str "a@@b") 0; Getxattr 0 (str "a@@b@1") 0]).
Proof.
  apply (C5_length_probe 0 (str "a@b") [] Store.sample [] [250] 5 [] 5).
  - eapply probed_cons; [vm_compute; reflexivity|vm_compute; reflexivity
                        |lia|reflexivity|apply probed_nil].
  - vm_compute. reflexivity.
  - vm_compute. reflexivity.
  - right. reflexivity.
  - vm_compute. discriminate.
  - simpl. lia.
Defined.

(** ** The store of attributes obeys what the statements assume *)

Section StoreFacts.

Implicit Types (m : Store.attrs) (key : list ascii).




Lemma store_holds fd m key v : m !! key = Some v -> holds fd m key v.
Proof.
  intros Hm. unfold holds. simpl. unfold Store.getxattr. rewrite Hm. split.
  - eexists. by rewrite bool_decide_eq_true_2.
  - intros size Hs Hle. rewrite bool_decide_eq_false_2 by done.
    by rewrite bool_decide_eq_false_2 by lia.
Qed.

Lemma store_absent fd m key : m !! key = None -> absent fd m key.
Proof.
  intros Hm size. simpl. unfold Store.getxattr. by rewrite Hm.
Qed.

End StoreFacts.

(** Sample reads of the chain of "a@b" (250 + 5 bytes): with room to
    spare, with a capacity on the block boundary, and with a capacity
    below the first chunk. *)
Example chain_fgetxattr_sample_300 :
  fst <$> returned (chain_fgetxattr 5 0 (str "a@b") (replicate 300 "-"%char) 300
                                    (Store.init Store.sample))
  = Some 255.
Proof. vm_compute. reflexivity. Qed.

Example chain_fgetxattr_sample_250 :
  fst <$> returned (chain_fgetxattr 5 0 (str "a@b") (replicate 250 "-"%char) 250
                                    (Store.init Store.sample))
  = Some (- ERANGE).
Proof. vm_compute. reflexivity. Qed.

Example chain_fgetxattr_sample_249 :
  fst <$> returned (chain_fgetxattr 5 0 (str "a@b") (replicate 249 "-"%char) 249
                                    (Store.init Store.sample))
  = Some (- ERANGE).
Proof. vm_compute. reflexivity. Qed.

(** Sums and products that leave [int]: the length probe of a chunk of
    2048 bytes followed by one of [INT_MAX] bytes, and the [len == 0]
    listing of a stream of [2^30] bytes. *)
Example getxattr_len_wraps :
  returned (getxattr_len (Ops := Script.ops Script.huge 0) 3 0 (str "n")
                         (State tt []))
  = Some (-2147481601).
Proof. vm_compute. reflexivity. Qed.

Example chain_listxattr_len0_wraps :
  returned (chain_listxattr (Ops := Script.ops Script.huge (2 ^ 30)) 0 [] 0
                            (State tt []))
  = Some (- 2 ^ 31, []).
Proof. vm_compute. reflexivity. Qed.

(** A destination with room for the last name but not for its
    terminator: the bounds test of the listing passes and [strcpy] stores
    the terminator one byte past the end.  With one byte less the listing
    reports the truncation error. *)
Example chain_flistxattr_sample_5 :
  chain_flistxattr 0 (replicate 5 "-"%char) 5 (Store.init Store.sample) = Undef.
Proof. vm_compute. reflexivity. Qed.

Example chain_flistxattr_sample_4 :
  fst <$> returned (chain_flistxattr 0 (replicate 4 "-"%char) 4
                                     (Store.init Store.sample))
  = Some (- ERANGE).
Proof. vm_compute. reflexivity. Qed.

(** C10.  With [len == 0] the listing returns twice what the primitive
    list returns for its own zero-length call, whatever its sign: a
    negative error code comes back multiplied by two.  The product is
    taken in [int], so this is said of the values whose double fits
    [int].  It makes this one call.  The same holds for the descriptor
    variant. *)
Theorem C10_list_len_zero `{Hdr : ChainHeader} {H W : Type}
    `{Ops : !XattrOps H W} `{OpsF : !XattrOps Z W}
    (fn : H) (fd : Z) (names : list ascii)
    (st : state H W) (stf : state Z W) :
  - 2 ^ 30 <= fst (prim_listxattr fn 0 (world st)) < 2 ^ 30 ->
  - 2 ^ 30 <= fst (prim_listxattr fd 0 (world stf)) < 2 ^ 30 ->
  chain_listxattr fn names 0 st
  = Ret ((fst (prim_listxattr fn 0 (world st)) * 2, names),
         State (world st) (trace st ++ [Listxattr fn 0]))
  /\ chain_flistxattr fd names 0 stf
     = Ret ((fst (prim_listxattr fd 0 (world stf)) * 2, names),
            State (world stf) (trace stf ++ [Listxattr fd 0])).
Proof.
  intros Hr Hrf. split.
  - unfold chain_listxattr, mbind, sys_listxattr. simpl.
    destruct (prim_listxattr fn 0 (world st)) as [r d]. simpl in *.
    unfold mret. by rewrite c_int_small by (unfold INT_MAX; lia).
  - unfold chain_flistxattr, chain_listxattr, mbind, sys_listxattr. simpl.
    destruct (prim_listxattr fd 0 (world stf)) as [r d]. simpl in *.
    unfold mret. by rewrite c_int_small by (unfold INT_MAX; lia).
Qed.

Lemma C10_list_len_zero_witness :
  chain_listxattr 0 [] 0 (Store.init Store.sample)
  = Ret ((fst (prim_listxattr 0 0 (world (Store.init Store.sample))) * 2, []),
         State (world (Store.init Store.sample))
               (trace (Store.init Store.sample) ++ [Listxattr 0 0]))
  /\ chain_flistxattr 0 [] 0 (Store.init Store.big)
     = Ret ((fst (prim_listxattr 0 0 (world (Store.init Store.big))) * 2, []),
            State (world (Store.init Store.big))
                  (trace (Store.init Store.big) ++ [Listxattr 0 0])).
Proof.
  apply (C10_list_len_zero 0 0 [] (Store.init Store.sample)
                           (Store.init Store.big)).
  - vm_compute. split; [discriminate|reflexivity].
  - vm_compute. split; [discriminate|reflexivity].
Defined.



(** C7 as stated fails: for a name the object does not have, the growing
    read returns the "no data" code of chunk 0, not zero. *)
Lemma C7_absent_counterexample :
  chain_getxattr_buf 4 4 0 (str "nope") (Some []) (Store.init Store.sample)
  = Ret ((- ENODATA, Some []),
         State Store.sample [Getxattr 0 (str "nope") 1024])
  /\ ~ (exists bp st,
          chain_getxattr_buf 4 4 0 (str "nope") (Some [])
                             (Store.init Store.sample)
          = Ret ((0, bp), st)).
Proof.
  split; [vm_compute; reflexivity|].
  intros (bp & st & Heq). vm_compute in Heq. discriminate.
Qed.

(** C7, amended.  The growing read starts with 1024 bytes and, while the
    bounded read reports the truncation error, doubles the size and
    reads again into a fresh buffer.  The first other result [r] is what
    it returns: for [r > 0] the buffer, cut to [r] bytes, is handed over
    through [bp]; for [r = 0] (an attribute with an empty value) and for
    every other error [bp] is left alone and [r] is returned unchanged.
    An absent attribute is such an error: the failure of the get of
    chunk 0 is returned, not zero. *)
Theorem C7_growing_read `{Hdr : ChainHeader} {H W : Type} `{Ops : !XattrOps H W}
    (fn : H) (name : list ascii) (bp : option (list ascii))
    (st st1 st2 st3 : state H W) (n : nat) (size r : Z)
    (buf buf' : list ascii) (fuel fuel_rd : nat) :
  grown fuel_rd fn name 1024 st n size st1 ->
  bufferptr_new size st1 = Ret (buf, st2) ->
  chain_getxattr fuel_rd fn name buf size st2 = Ret ((r, buf'), st3) ->
  r ≠ - ERANGE ->
  (n < fuel)%nat ->
  chain_getxattr_buf fuel fuel_rd fn name bp st
  = Ret ((r, if bool_decide (r > 0)
             then match bp with
                  | Some _ => Some (take (Z.to_nat r) buf')
                  | None => None
                  end
             else bp), st3)
  /\ (forall w tr e fuel' fuel_rd',
        encodable name 0 ->
        malloc_ok 1024 w = true ->
        prim_getxattr fn (key_of name 0) 1024 w = (e, []) ->
        e < 0 -> e ≠ - ERANGE ->
        chain_getxattr_buf (S fuel') (S fuel_rd') fn name bp (State w tr)
        = Ret ((e, bp), State w (tr ++ [Getxattr fn (key_of name 0) 1024]))).
Proof.
  intros Hg Hb Hr Hne Hfuel. split.
  - unfold chain_getxattr_buf.
    replace fuel with (n + S (fuel - n - 1))%nat by lia.
    rewrite (chain_getxattr_buf_loop_grown _ _ _ _ _ _ _ _ Hg).
    by apply chain_getxattr_buf_loop_last with (buf := buf) (st1 := st2).
  - intros w tr e fuel' fuel_rd' He Hm Hp Hneg Hne'.
    unfold chain_getxattr_buf.
    erewrite chain_getxattr_buf_loop_last; [|
      unfold bufferptr_new; simpl; rewrite Hm; reflexivity|
      apply chain_getxattr_chunk0_fails; [done|done|exact Hp|done]|done].
    by rewrite bool_decide_eq_false_2 by lia.
Qed.

Lemma C7_growing_read_witness :
  chain_getxattr_buf 3 3 0 (str "big") (Some []) (Store.init Store.big)
  = Ret ((1500, Some (replicate 1500 "y"%char)),
         State Store.big
           [Getxattr 0 (str "big") 1024; Getxattr 0 (str "big") 2048;
            Getxattr 0 (str "big@1") 0])
  /\ chain_getxattr_buf 3 3 0 (str "big") (Some []) (Store.init Store.sample)
     = Ret ((- ENODATA, Some []),
            State Store.sample [Getxattr 0 (str "big") 1024]).
Proof.
  destruct (C7_growing_read 0 (str "big") (Some [])
              (Store.init Store.big)
              (State Store.big [Getxattr 0 (str "big") 1024])
              (State Store.big [Getxattr 0 (str "big") 1024])
              (State Store.big
                 [Getxattr 0 (str "big") 1024; Getxattr 0 (str "big") 2048;
                  Getxattr 0 (str "big@1") 0])
              1 2048 1500
              (replicate 2048 NUL)
              (replicate 1500 "y"%char ++ replicate 548 NUL) 3 3)
    as [Hgrow Habsent].
  - eapply grown_cons;
      [vm_compute; reflexivity|vm_compute; reflexivity|apply grown_nil].
  - vm_compute. reflexivity.
  - vm_compute. reflexivity.
  - unfold ERANGE. lia.
  - lia.
  - split.
    + rewrite Hgrow. vm_compute. reflexivity.
    + apply (Habsent Store.sample [] (- ENODATA) 2%nat 2%nat).
      * vm_compute. reflexivity.
      * reflexivity.
      * vm_compute. reflexivity.
      * unfold ENODATA. lia.
      * unfold ENODATA, ERANGE. lia.
Defined.

(** C1.  Let the chunks [vs] of a name, each of a block length, fill the
    capacity [c] of a bounded read exactly.  The read gets them in
    ascending order with the room left, then makes one zero-length get
    at the next index, and returns the truncation error when that get
    reports a positive length [p] (else the byte count [c]).  When the
    length-only probe of the name reports a total greater than [c], the
    read returns the truncation error: never the short count.  The
    byte count is an [int], so [c] is at most [INT_MAX].  (The
    descriptor variant is this function at the primitives of a
    descriptor.) *)
Theorem C1_boundary_probe `{Hdr : ChainHeader} {H W : Type} `{Ops : !XattrOps H W}
    (fn : H) (name val : list ascii) (w : W) (tr : list (syscall H))
    (vs : list (list ascii)) (c p : Z) (d : list ascii) (fuel : nat) :
  header_ok ->
  stored fn name w 0 vs ->
  vs ≠ [] ->
  Forall (fun v => is_block_len (Z.of_nat (length v)) = true) vs ->
  Z.of_nat (length (concat vs)) = c ->
  c <= INT_MAX ->
  Z.of_nat (length val) = c ->
  encodable name (Z.of_nat (length vs)) ->
  prim_getxattr fn (key_of name (Z.of_nat (length vs))) 0 w = (p, d) ->
  (length vs <= fuel)%nat ->
  chain_getxattr fuel fn name val c (State w tr)
  = Ret ((if bool_decide (p > 0) then - ERANGE else c, concat vs),
         State w (tr ++ read_calls fn name 0 c vs
                     ++ [Getxattr fn (key_of name (Z.of_nat (length vs))) 0]))
  /\ (forall fuel' tr' total st',
        getxattr_len fuel' fn name (State w tr') = Ret (total, st') ->
        c < total ->
        chain_getxattr fuel fn name val c (State w tr)
        = Ret ((- ERANGE, concat vs),
               State w (tr ++ read_calls fn name 0 c vs
                           ++ [Getxattr fn (key_of name (Z.of_nat (length vs))) 0]))).
Proof.
  intros Hok Hst Hne Hblk Hc Hlt Hval He Hp Hfuel.
  assert (Hcpos : 0 < c).
  { destruct vs as [|v vs]; [done|]. inversion Hblk; subst.
    pose proof (is_block_len_pos _ Hok ltac:(eassumption)).
    simpl. rewrite length_app. lia. }
  assert (Hrun : chain_getxattr fuel fn name val c (State w tr)
    = Ret ((if bool_decide (p > 0) then - ERANGE else c, concat vs),
           State w (tr ++ read_calls fn name 0 c vs
                       ++ [Getxattr fn (key_of name (Z.of_nat (length vs))) 0]))).
  { unfold chain_getxattr. rewrite bool_decide_eq_false_2 by lia.
    destruct (chain_getxattr_loop_exact fn name w 0 vs Hok Hst Hne Hblk
                fuel [] val tr c ltac:(done) ltac:(simpl; lia) Hval Hfuel)
      as (r & cs & Hloop & Hr & Hcs).
    simpl in Hloop. rewrite (mbind_Ret _ _ _ _ _ Hloop).
    unfold chain_getxattr_end. simpl.
    rewrite bool_decide_eq_true_2 by lia. rewrite Hcs.
    rewrite (mbind_lift _ _ _ _ He).
    rewrite (mbind_Ret _ _ _ _ _ (sys_getxattr_probe _ _ _ _ _ _ Hp)).
    rewrite <- app_assoc. by case_bool_decide. }
  split; [exact Hrun|].
  intros fuel' tr' total st' Hlen Htot. rewrite Hrun.
  rewrite bool_decide_eq_true_2; [done|].
  unfold getxattr_len in Hlen.
  apply (getxattr_len_loop_more _ (S (length vs))) in Hlen.
  replace (fuel' + S (length vs))%nat
    with (length (map (fun v => Z.of_nat (length v)) vs) + S fuel')%nat in Hlen
    by (rewrite length_map; lia).
  rewrite (getxattr_len_loop_probed _ _ _ _ _ (stored_probed _ _ _ _ _ Hst Hblk))
    in Hlen by (rewrite ?total_len_lengths; lia).
  rewrite length_map, total_len_lengths, Hc, !Z.add_0_l in Hlen.
  rewrite (getxattr_len_loop_step _ _ _ _ _ _ _ _ _ He Hp) in Hlen.
  rewrite (bool_decide_eq_false_2 (Z.of_nat (length vs) = 0)) in Hlen
    by (destruct vs; [done|simpl; lia]).
  simpl in Hlen. case_bool_decide; [inversion Hlen; lia|].
  destruct (is_block_len p) eqn:Hbp.
  - pose proof (is_block_len_pos _ Hok Hbp). lia.
  - inversion Hlen as [Htotal].
    destruct (decide (p = 0)) as [-> | ?]; [|lia].
    rewrite Z.add_0_r, c_int_small in Htotal by lia. lia.
Qed.

Lemma C1_boundary_probe_witness :
  chain_fgetxattr 5 0 (str "a@b") (replicate 250 "-"%char) 250
                  (Store.init Store.sample)
  = Ret ((- ERANGE, replicate 250 "x"%char),
         State Store.sample
           [Getxattr 0 (str "a@@b") 250; Getxattr 0 (str "a@@b@1") 0])
  /\ returned (getxattr_len 5 0 (str "a@b") (Store.init Store.sample))
     = Some 255.
Proof.
  destruct (C1_boundary_probe 0 (str "a@b") (replicate 250 "-"%char)
              Store.sample [] [replicate 250 "x"%char] 250 5 [] 5)
    as [_ Hshort].
  - unfold header_ok. simpl. lia.
  - apply stored_cons; [vm_compute; reflexivity| |apply stored_nil].
    apply store_holds. vm_compute. reflexivity.
  - done.
  - repeat constructor.
  - vm_compute. reflexivity.
  - vm_compute. discriminate.
  - vm_compute. reflexivity.
  - vm_compute. reflexivity.
  - vm_compute. reflexivity.
  - simpl. lia.
  - split; [|vm_compute; reflexivity].
    etrans.
    { apply (Hshort 5%nat [] 255
               (State Store.sample
                  [Getxattr 0 (str "a@@b") 0; Getxattr 0 (str "a@@b@1") 0]));
        [vm_compute; reflexivity|lia]. }
    vm_compute. reflexivity.
Defined.

(** C2.  Let the store hold the chain [vs ++ [v]] of a name: its chunks
    at the indices 0, 1, ... in this order, all but the last of a block
    length, and nothing at the next index.  Its total length [L] is what
    the length-only probe reports.  A bounded read with any capacity
    [c >= L > 0], on a block boundary or not, returns exactly [L], and
    the first [L] bytes of the buffer are the chunks one after the
    other.  Both results are [int]s, so [L] is at most [INT_MAX].  (The
    descriptor variant is this function at the primitives of a
    descriptor.) *)
Theorem C2_read_whole `{Hdr : ChainHeader} {H W : Type} `{Ops : !XattrOps H W}
    (fn : H) (name val : list ascii) (w : W) (tr : list (syscall H))
    (vs : list (list ascii)) (v : list ascii) (L c : Z) (fuel : nat) :
  header_ok ->
  stored fn name w 0 (vs ++ [v]) ->
  Forall (fun v => is_block_len (Z.of_nat (length v)) = true) vs ->
  encodable name (Z.of_nat (length vs) + 1) ->
  absent fn w (key_of name (Z.of_nat (length vs) + 1)) ->
  L = Z.of_nat (length (concat (vs ++ [v]))) ->
  0 < L -> L <= INT_MAX -> L <= c -> c < 2 ^ 64 ->
  Z.of_nat (length val) = c ->
  (length vs + 1 < fuel)%nat ->
  exists tr1 tr2 val',
    chain_getxattr fuel fn name val 0 (State w tr) = Ret ((L, val), State w tr1)
    /\ chain_getxattr fuel fn name val c (State w tr)
       = Ret ((L, val'), State w tr2)
    /\ take (Z.to_nat L) val' = concat (vs ++ [v]).
Proof.
  intros Hok Hst Hblk He1 Habs -> Hpos Hint Hle Hlt Hval Hfuel.
  destruct (getxattr_len_whole fn name w tr vs v fuel Hst Hblk He1 Habs Hfuel
              Hint)
    as [tr1 Hlen].
  destruct (chain_getxattr_whole fn name w v Hok vs 0 [] val c tr fuel)
    as [tr2 Hrun]; try done; try lia.
  exists tr1, tr2, (concat (vs ++ [v]) ++ drop (length (concat (vs ++ [v]))) val).
  split; [|split].
  - unfold chain_getxattr. rewrite bool_decide_eq_true_2 by done.
    by rewrite (mbind_Ret _ _ _ _ _ Hlen).
  - unfold chain_getxattr. rewrite bool_decide_eq_false_2 by lia.
    exact Hrun.
  - by rewrite Nat2Z.id, take_app_length.
Qed.

Lemma C2_read_whole_witness :
  exists tr1 tr2 val',
    chain_fgetxattr 5 0 (str "a@b") (replicate 300 "-"%char) 0
                    (Store.init Store.sample)
    = Ret ((255, replicate 300 "-"%char), State Store.sample tr1)
    /\ chain_fgetxattr 5 0 (str "a@b") (replicate 300 "-"%char) 300
                       (Store.init Store.sample)
       = Ret ((255, val'), State Store.sample tr2)
    /\ take (Z.to_nat 255) val'
       = concat ([replicate 250 "x"%char] ++ [str "hello"]).
Proof.
  apply (C2_read_whole 0 (str "a@b") (replicate 300 "-"%char) Store.sample []
           [replicate 250 "x"%char] (str "hello") 255 300 5).
  - unfold header_ok. simpl. lia.
  - apply stored_cons; [vm_compute; reflexivity| |].
    { apply store_holds. vm_compute. reflexivity. }
    apply stored_cons; [vm_compute; reflexivity| |apply stored_nil].
    apply store_holds. vm_compute. reflexivity.
  - repeat constructor.
  - vm_compute. reflexivity.
  - apply store_absent. vm_compute. reflexivity.
  - vm_compute. reflexivity.
  - lia.
  - vm_compute. discriminate.
  - lia.
  - lia.
  - vm_compute. reflexivity.
  - simpl. lia.
Defined.

(** C9.  Let the primitive list of an object produce the keys of the
    (name, chunk index) pairs [entries], each followed by NUL.  With a
    destination of [len > 0] bytes that has room for them, the listing
    writes exactly the names of the pairs with chunk index 0, in the
    order of their keys, each followed by NUL, one after the other: a
    key with an "@i" suffix contributes nothing, and a name with [@]
    characters comes back as it was before escaping.  It returns the
    number of bytes written.  The size of the stream is doubled in
    [int], so the size [r0] the primitive reports is below [2^30].  (The
    descriptor variant is this function at the primitives of a
    descriptor.) *)
Theorem C9_list_logical_names `{Hdr : ChainHeader} {H W : Type}
    `{Ops : !XattrOps H W}
    (fn : H) (names : list ascii) (len : Z) (w : W) (tr : list (syscall H))
    (entries : list (list ascii * Z)) (r0 : Z) (d0 : list ascii) :
  header_ok ->
  Forall (fun e => cstring (fst e) /\ encodable (fst e) (snd e)) entries ->
  prim_listxattr fn 0 w = (r0, d0) ->
  0 <= r0 ->
  r0 < 2 ^ 30 ->
  malloc_ok (r0 * 2) w = true ->
  prim_listxattr fn (r0 * 2) w
  = (Z.of_nat (length (physical_keys entries)), physical_keys entries) ->
  Z.of_nat (length (physical_keys entries)) <= r0 * 2 ->
  0 < len ->
  Z.of_nat (length (logical_names entries)) <= len ->
  Z.of_nat (length names) = len ->
  chain_listxattr fn names len (State w tr)
  = Ret ((Z.of_nat (length (logical_names entries)),
          logical_names entries
          ++ drop (length (logical_names entries)) names),
         State w (tr ++ [Listxattr fn 0; Listxattr fn (r0 * 2)])).
Proof.
  intros Hok Hes Hp0 Hr0 Hsmall Hm Hp Hfit Hlen Hroom Hnames.
  pose proof (logical_names_length entries) as Hln.
  assert (Htot : size_t (c_int (r0 * 2)) = r0 * 2).
  { rewrite c_int_small by (unfold INT_MAX; lia).
    unfold size_t. apply Z.mod_small. lia. }
  unfold chain_listxattr. rewrite bool_decide_eq_false_2 by lia.
  rewrite (mbind_Ret _ _ _ _ _ (sys_listxattr_probe _ _ _ _ _ Hp0)).
  rewrite bool_decide_eq_false_2 by lia. rewrite Htot.
  unfold mbind at 1, malloc at 1. simpl world. rewrite Hm.
  unfold mbind at 1, fresh at 1, mret at 1. simpl obind.
  set (fb := resize (Z.to_nat (r0 * 2)) NUL (junk w)).
  unfold mbind, sys_listxattr. simpl world. rewrite Hp.
  destruct (decide (r0 * 2 = 0)) as [Hz|Hnz].
  - rewrite (bool_decide_eq_true_2 _ Hz). simpl obind.
    rewrite bool_decide_eq_false_2 by lia.
    assert (entries = []) as ->.
    { pose proof (physical_keys_length entries).
      destruct entries; [done|simpl in *; lia]. }
    simpl. unfold mret, log. simpl. rewrite <- app_assoc.
    by rewrite c_int_small by (unfold INT_MAX; lia).
  - rewrite (bool_decide_eq_false_2 _ Hnz).
    assert (Hpoke : poke fb 0 (physical_keys entries)
                    = Ret (physical_keys entries
                           ++ drop (length (physical_keys entries)) fb)).
    { apply (poke_app [] fb). unfold fb. rewrite length_resize. lia. }
    rewrite Hpoke.
    simpl obind. rewrite bool_decide_eq_false_2 by lia.
    pose proof (chain_listxattr_loop_keys entries Hok Hes
                  (Z.to_nat (Z.of_nat (length (physical_keys entries))))
                  [] (drop (length (physical_keys entries)) fb) [] names)
      as Hloop.
    simpl in Hloop. rewrite <- Hnames.
    rewrite Hloop
      by (pose proof (physical_keys_length entries); unfold INT_MAX; lia).
    unfold log. simpl. by rewrite <- app_assoc.
Qed.

Lemma C9_list_logical_names_witness :
  chain_flistxattr 0 (replicate 10 "-"%char) 10 (Store.init Store.sample)
  = Ret ((Z.of_nat (length (logical_names
                              [(str "c", 0); (str "a@b", 0); (str "a@b", 1)])),
          logical_names [(str "c", 0); (str "a@b", 0); (str "a@b", 1)]
          ++ drop (length (logical_names
                             [(str "c", 0); (str "a@b", 0); (str "a@b", 1)]))
                  (replicate 10 "-"%char)),
         State Store.sample ([] ++ [Listxattr 0 0; Listxattr 0 (14 * 2)])).
Proof.
  apply (C9_list_logical_names 0 (replicate 10 "-"%char) 10 Store.sample []
           [(str "c", 0); (str "a@b", 0); (str "a@b", 1)] 14 []).
  - unfold header_ok. simpl. lia.
  - repeat constructor; simpl;
      try (apply (bool_decide_unpack _); vm_compute; exact I);
      vm_compute; reflexivity.
  - vm_compute. reflexivity.
  - lia.
  - lia.
  - reflexivity.
  - vm_compute. reflexivity.
  - vm_compute. discriminate.
  - lia.
  - vm_compute. discriminate.
  - vm_compute. reflexivity.
Defined.

(** * Further properties *)

(** ** Name codec *)

Section CodecMore.

Implicit Types name raw rest buf pre post : list ascii.

(** A suffix as the encoder appends it: nothing, or [@] and a character
    other than [@]. *)
Lemma escape_app_inj name name' s s' :
  (s = [] \/ exists ch tl, s = AT :: ch :: tl /\ ch ≠ AT) ->
  (s' = [] \/ exists ch tl, s' = AT :: ch :: tl /\ ch ≠ AT) ->
  escape name ++ s = escape name' ++ s' ->
  name = name' /\ s = s'.
Proof.
  revert name'. induction name as [|ch name IH]; intros [|ch' name'] Hs Hs' Heq.
  - done.
  - simpl in Heq. exfalso.
    destruct Hs as [->|(c & tl & -> & Hc)]; destruct (decide (ch' = AT));
      simpl in Heq; congruence.
  - simpl in Heq. exfalso.
    destruct Hs' as [->|(c & tl & -> & Hc)]; destruct (decide (ch = AT));
      simpl in Heq; congruence.
  - simpl in Heq.
    destruct (decide (ch = AT)) as [->|Hch];
      destruct (decide (ch' = AT)) as [->|Hch']; simpl in Heq;
      try congruence.
    + inversion Heq as [Heq']. destruct (IH _ Hs Hs' Heq') as [-> ->]. done.
    + inversion Heq as [[Hc Heq']]. destruct (IH _ Hs Hs' Heq') as [-> ->]. done.
Qed.

Lemma at_decimal_inj i i' : at_decimal i = at_decimal i' -> i = i'.
Proof.
  unfold at_decimal. intros Heq. inversion Heq as [Hs].
  apply (f_equal string_of_list_ascii) in Hs.
  rewrite !string_of_list_ascii_of_string in Hs.
  assert (Hnn : forall z, Z.to_int z ≠ Decimal.Pos Decimal.Nil
                          /\ Z.to_int z ≠ Decimal.Neg Decimal.Nil).
  { intros [|q|q]; simpl; split; try discriminate;
      intros [= Hq]; by apply Unsigned.to_uint_nonnil in Hq. }
  apply DecimalZ.to_int_inj.
  destruct (Hnn i) as [Hp Hn]. destruct (Hnn i') as [Hp' Hn'].
  pose proof (NilZero.isi _ Hp Hn) as Hi.
  pose proof (NilZero.isi _ Hp' Hn') as Hi'.
  rewrite Hs in Hi. congruence.
Qed.

(** The encoder stops at an assertion when the escaped name does not fit. *)
Lemma get_raw_xattr_name_loop_crash name pos raw_len :
  name ≠ [] ->
  raw_len - 1 <= pos + Z.of_nat (length (escape name)) ->
  get_raw_xattr_name_loop name pos raw_len = Crash.
Proof.
  revert pos. induction name as [|ch name IH]; intros pos Hne Hge; [done|].
  simpl in *. destruct (decide (ch = AT)); simpl in Hge.
  - case_bool_decide; [|done].
    destruct name as [|ch' name]; [simpl in *; lia|].
    rewrite IH; [done|done|lia].
  - case_bool_decide; [|done].
    destruct name as [|ch' name]; [simpl in *; lia|].
    rewrite IH; [done|done|lia].
Qed.

End CodecMore.

(** X1.  Keys do not collide: two calls of the encoder that return the
    same key were made for the same name and the same chunk index. *)
Theorem X1_get_raw_xattr_name_inj
    (name name' key : list ascii) (i i' raw_len raw_len' : Z) :
  get_raw_xattr_name name i raw_len = Ret key ->
  get_raw_xattr_name name' i' raw_len' = Ret key ->
  name = name' /\ i = i'.
Proof.
  intros H1 H2.
  apply get_raw_xattr_name_inv in H1 as [-> _].
  apply get_raw_xattr_name_inv in H2 as [H2 _].
  assert (Hsfx : forall j,
    (if bool_decide (j = 0) then [] else at_decimal j) = []
    \/ exists ch tl, (if bool_decide (j = 0) then [] else at_decimal j)
                     = AT :: ch :: tl /\ ch ≠ AT).
  { intros j. destruct (bool_decide (j = 0)); [left; reflexivity|right].
    destruct (at_decimal_shape j) as (ch & tl & -> & [_ Hch] & _). eauto. }
  destruct (escape_app_inj _ _ _ _ (Hsfx i) (Hsfx i') H2) as [-> Hs].
  split; [done|].
  repeat case_bool_decide; subst; try done; by apply at_decimal_inj.
Qed.

Lemma X1_get_raw_xattr_name_inj_witness :
  str "a@b" = str "a@b" /\ 12 = 12.
Proof.
  apply (X1_get_raw_xattr_name_inj (str "a@b") (str "a@b") (str "a@@b@12")
                                   12 12 272 64); reflexivity.
Defined.

(** X2.  The encoder either returns the escaped name with its suffix or
    stops at an assertion; it returns exactly when the escaped name (if
    the name is not empty) is shorter than [raw_len - 1] and the suffix
    (if the index is not 0) is shorter than the room left.  A key it
    returns for a name or an index that is not empty or 0 fits, with its
    terminator, the [raw_len] bytes of the destination. *)
Theorem X2_get_raw_xattr_name_fits (name : list ascii) (i raw_len : Z) :
  get_raw_xattr_name name i raw_len
  = (if bool_decide ((name = [] \/ Z.of_nat (length (escape name)) < raw_len - 1)
                     /\ (i = 0 \/ Z.of_nat (length (at_decimal i))
                                  < raw_len - Z.of_nat (length (escape name))))
     then Ret (key_of name i) else Crash)
  /\ forall key,
       get_raw_xattr_name name i raw_len = Ret key ->
       name ≠ [] \/ i ≠ 0 ->
       Z.of_nat (length key) + 1 <= raw_len.
Proof.
  assert (Hchar : get_raw_xattr_name name i raw_len
    = (if bool_decide ((name = [] \/ Z.of_nat (length (escape name)) < raw_len - 1)
                       /\ (i = 0 \/ Z.of_nat (length (at_decimal i))
                                    < raw_len - Z.of_nat (length (escape name))))
       then Ret (key_of name i) else Crash)).
  { unfold get_raw_xattr_name, key_of.
    destruct (decide (name = [] \/ Z.of_nat (length (escape name)) < raw_len - 1))
      as [Hfit|Hfit].
    - assert (Hloop : get_raw_xattr_name_loop name 0 raw_len
                      = Ret (escape name, Z.of_nat (length (escape name)))).
      { destruct Hfit as [->|Hfit]; [done|].
        by rewrite get_raw_xattr_name_loop_ret by lia. }
      rewrite Hloop. cbv beta iota delta [obind].
      destruct (decide (i = 0)) as [->|Hi].
      + rewrite (bool_decide_eq_true_2 (0 = 0)) by done.
        rewrite bool_decide_eq_true_2 by auto. by rewrite app_nil_r.
      + rewrite (bool_decide_eq_false_2 (i = 0)) by done.
        case_bool_decide.
        * by rewrite bool_decide_eq_true_2 by auto.
        * rewrite bool_decide_eq_false_2; [done|]. intros [_ [?|?]]; done.
    - rewrite get_raw_xattr_name_loop_crash.
      + rewrite (bool_decide_eq_false_2 (_ /\ _)); [reflexivity|].
        intros [? _]. done.
      + intros ->. apply Hfit. by left.
      + destruct (decide (Z.of_nat (length (escape name)) < raw_len - 1));
          [exfalso; apply Hfit; by right|lia]. }
  split; [exact Hchar|].
  intros key Hret Hne. rewrite Hchar in Hret.
  case_bool_decide as Hfit; [|done]. inversion Hret; subst key.
  destruct Hfit as [Hn Hi]. unfold key_of. rewrite length_app.
  case_bool_decide as Hi0.
  - simpl. destruct Hn as [->|Hn]; [destruct Hne; done|lia].
  - destruct Hi as [?|Hi]; [done|]. lia.
Qed.

(** X3.  A key that ends in an unescaped [@]: the decoder stores the
    name before it, then steps over the [@] and over the terminator,
    counts one byte of the name that it does not store, and goes on
    decoding the memory after the terminator.  When the object ends with
    the terminator this is a read outside it; when the next byte is NUL
    the call returns a length one above that of the name, with
    [is_first = true]. *)
Theorem X3_translate_raw_name_trailing_escape
    (name rest buf : list ascii) (name_len : Z) :
  cstring name ->
  Z.of_nat (length name) + 1 < name_len ->
  (length name <= length buf)%nat ->
  translate_raw_name (escape name ++ AT :: NUL :: rest) buf name_len
  = translate_raw_name_loop rest (name ++ drop (length name) buf)
                            (Z.of_nat (length name) + 1) name_len
  /\ translate_raw_name (escape name ++ [AT; NUL]) buf name_len = Undef
  /\ translate_raw_name (escape name ++ AT :: NUL :: NUL :: rest) buf name_len
     = Ret (Z.of_nat (length name) + 1,
            <[S (length name) := NUL]> (name ++ drop (length name) buf),
            true).
Proof.
  intros Hc Hlt Hbuf.
  assert (Hrun : forall tail,
    translate_raw_name (escape name ++ AT :: NUL :: tail) buf name_len
    = translate_raw_name_loop tail (name ++ drop (length name) buf)
                              (Z.of_nat (length name) + 1) name_len).
  { intros tail. unfold translate_raw_name. etrans.
    { apply (translate_raw_name_loop_escape name (AT :: NUL :: tail) [] buf
                                            name_len); [done|simpl; lia|lia]. }
    simpl. unfold advance. by rewrite bool_decide_eq_true_2 by lia. }
  split; [apply Hrun|]. split; [by rewrite Hrun|].
  rewrite Hrun. simpl. do 3 f_equal. f_equal. lia.
Qed.

Lemma X3_translate_raw_name_trailing_escape_witness :
  translate_raw_name (escape (str "a") ++ AT :: NUL :: str "b@1" ++ [NUL])
                     (replicate 8 "x"%char) 8
  = translate_raw_name_loop (str "b@1" ++ [NUL])
      (str "a" ++ drop (length (str "a")) (replicate 8 "x"%char))
      (Z.of_nat (length (str "a")) + 1) 8
  /\ translate_raw_name (escape (str "a") ++ [AT; NUL]) (replicate 8 "x"%char) 8
     = Undef
  /\ translate_raw_name
       (escape (str "a") ++ AT :: NUL :: NUL :: str "b@1" ++ [NUL])
       (replicate 8 "x"%char) 8
     = Ret (Z.of_nat (length (str "a")) + 1,
            <[S (length (str "a")) := NUL]>
              (str "a" ++ drop (length (str "a")) (replicate 8 "x"%char)),
            true).
Proof.
  apply (X3_translate_raw_name_trailing_escape
           (str "a") (str "b@1" ++ [NUL]) (replicate 8 "x"%char) 8).
  - apply (bool_decide_unpack _). vm_compute. exact I.
  - simpl. lia.
  - simpl. lia.
Defined.

(** X4.  The decoder does not read the chunk index: whatever follows an
    unescaped [@], as long as the next character is neither [@] nor the
    terminator, the key is taken for a later chunk of the name before the
    [@] ([is_first = false]). *)
Theorem X4_translate_raw_name_any_suffix
    (name rest buf : list ascii) (ch : ascii) (name_len : Z) :
  cstring name ->
  plain ch ->
  Z.of_nat (length name) < name_len ->
  Z.of_nat (length buf) = name_len ->
  exists name',
    translate_raw_name (escape name ++ AT :: ch :: rest) buf name_len
    = Ret (Z.of_nat (length name), name', false)
    /\ c_str name' = Ret name.
Proof.
  intros Hc Hch Hlt Hbuf.
  exists (name ++ NUL :: drop (S (length name)) buf).
  split; [by apply translate_raw_name_suffix|by apply c_str_app].
Qed.

Lemma X4_translate_raw_name_any_suffix_witness :
  exists name',
    translate_raw_name (escape (str "user") ++ AT :: "h"%char :: str "ost" ++ [NUL])
                       (replicate 16 NUL) 16
    = Ret (Z.of_nat (length (str "user")), name', false)
    /\ c_str name' = Ret (str "user").
Proof.
  apply (X4_translate_raw_name_any_suffix
           (str "user") (str "ost" ++ [NUL]) (replicate 16 NUL) "h"%char 16).
  - apply (bool_decide_unpack _). vm_compute. exact I.
  - split; discriminate.
  - simpl. lia.
  - vm_compute. reflexivity.
Defined.

(** ** Reads *)

Section ChainMore.
Context `{Hdr : ChainHeader} {H W : Type} `{Ops : !XattrOps H W}.

Implicit Types (fn : H) (w : W) (tr : list (syscall H)) (st : state H W).
Implicit Types (name key val pre post out rest seen slack : list ascii).

(** A negative result of the length loop is the failure of chunk 0, as
    long as the lengths reported, each at most [B], cannot add up to
    more than [INT_MAX] in the rounds left. *)
Lemma getxattr_len_loop_sign fuel fn name w B :
  (forall key r d, prim_getxattr fn key 0 w = (r, d) -> r <= B) ->
  forall i total tr r st',
    0 <= total -> total + Z.of_nat fuel * B <= INT_MAX -> 0 <= i ->
    getxattr_len_loop fuel fn name i total (State w tr) = Ret (r, st') ->
    r < 0 ->
    i = 0
    /\ exists key d,
         get_raw_xattr_name name 0 RAW_NAME_SIZE = Ret key
         /\ prim_getxattr fn key 0 w = (r, d)
         /\ st' = State w (tr ++ [Getxattr fn key 0]).
Proof.
  intros HB. induction fuel as [|fuel IH];
    intros i total tr r st' Htot Hint Hi Hrun Hneg; [done|].
  rewrite getxattr_len_loop_S in Hrun. unfold mbind, lift in Hrun.
  destruct (get_raw_xattr_name name i RAW_NAME_SIZE) as [key| | |] eqn:Hkey;
    try done.
  simpl in Hrun. unfold sys_getxattr in Hrun. simpl world in Hrun.
  destruct (prim_getxattr fn key 0 w) as [r0 d] eqn:Hp.
  pose proof (HB _ _ _ Hp) as Hr0B.
  simpl in Hrun.
  assert (Hsum : 0 <= r0 -> c_int (total + r0) = total + r0
                            /\ total + r0 + Z.of_nat fuel * B <= INT_MAX).
  { intros Hr0. rewrite Nat2Z.inj_succ in Hint.
    assert (0 <= Z.of_nat fuel * B) by nia.
    split; [apply c_int_small|]; nia. }
  destruct (decide (i = 0)) as [->|Hi0].
  - rewrite (bool_decide_eq_true_2 (0 = 0)) in Hrun by done. simpl in Hrun.
    destruct (decide (r0 < 0)) as [Hr0|Hr0].
    + rewrite (bool_decide_eq_true_2 _ Hr0) in Hrun. inversion Hrun; subst.
      split; [done|]. by exists key, d.
    + rewrite (bool_decide_eq_false_2 _ Hr0) in Hrun.
      destruct (Hsum ltac:(lia)) as [Heq Hnext]. rewrite Heq in Hrun.
      destruct (is_block_len r0).
      * apply IH in Hrun; [|lia|lia|lia|done]. destruct Hrun as [? _]. lia.
      * inversion Hrun; subst. lia.
  - rewrite (bool_decide_eq_false_2 (i = 0)) in Hrun by done. simpl in Hrun.
    case_bool_decide; [inversion Hrun; subst; lia|].
    destruct (Hsum ltac:(lia)) as [Heq Hnext]. rewrite Heq in Hrun.
    destruct (is_block_len r0).
    + apply IH in Hrun; [|lia|lia|lia|done]. destruct Hrun as [? _]. lia.
    + inversion Hrun; subst. lia.
Qed.

(** The read loop runs through full chunks while room is left. *)
Lemma chain_getxattr_loop_full fn name w i vs :
  header_ok ->
  stored fn name w i vs ->
  Forall (fun v => is_block_len (Z.of_nat (length v)) = true) vs ->
  forall fuel pre post tr size,
    Z.of_nat (length (concat vs)) < size -> size < 2 ^ 64 ->
    Z.of_nat (length post) = size ->
    Z.of_nat (length pre) + Z.of_nat (length (concat vs)) <= INT_MAX ->
    chain_getxattr_loop (length vs + fuel) fn name (pre ++ post) i
                        (Z.of_nat (length pre)) size (State w tr)
    = chain_getxattr_loop fuel fn name
        ((pre ++ concat vs) ++ drop (length (concat vs)) post)
        (i + Z.of_nat (length vs))
        (Z.of_nat (length (pre ++ concat vs)))
        (size - Z.of_nat (length (concat vs)))
        (State w (tr ++ read_calls fn name i size vs)).
Proof.
  intros Hok. induction 1 as [i|i v vs He Hh Hst IH];
    intros Hblk fuel pre post tr size Hroom Hlt Hpost Hint.
  - simpl. by rewrite !app_nil_r, Z.add_0_r, Z.sub_0_r.
  - apply Forall_cons in Hblk as [Hv Hvs].
    pose proof (is_block_len_pos _ Hok Hv) as Hvpos.
    simpl concat in *. rewrite length_app in Hroom, Hint.
    change (length (v :: vs) + fuel)%nat with (S (length vs + fuel)).
    rewrite (chain_getxattr_loop_step _ _ _ _ _ _ _ _ _ _ He Hh) by lia.
    rewrite Hv, andb_true_r, bool_decide_eq_true_2 by lia.
    rewrite (IH Hvs) by (rewrite ?length_drop, ?length_app; lia).
    rewrite drop_drop, <- !app_assoc. simpl read_calls.
    replace (i + 1 + Z.of_nat (length vs))
      with (i + Z.of_nat (length (v :: vs))) by (simpl length; lia).
    replace (size - Z.of_nat (length v) - Z.of_nat (length (concat vs)))
      with (size - Z.of_nat (length (v ++ concat vs)))
      by (rewrite length_app; lia).
    by rewrite (length_app v).
Qed.

(** The read loop at a get that fails. *)
Lemma chain_getxattr_loop_fails fuel fn name val i pos size w tr e :
  size ≠ 0 ->
  0 <= pos <= Z.of_nat (length val) ->
  encodable name i ->
  prim_getxattr fn (key_of name i) size w = (e, []) ->
  e < 0 ->
  i = 0 \/ e ≠ - ENODATA ->
  mbind (chain_getxattr_loop (S fuel) fn name val i pos size)
        (chain_getxattr_end fn name) (State w tr)
  = Ret ((e, val), State w (tr ++ [Getxattr fn (key_of name i) size])).
Proof.
  intros Hs Hpos He Hp Hneg Hhard. unfold mbind at 1.
  rewrite chain_getxattr_loop_S, (mbind_lift _ _ _ _ He).
  rewrite (mbind_Ret _ _ _ _ _
             (sys_getxattr_read _ _ _ _ _ _ _ _ _ _ Hs Hp (poke_nil _ _ Hpos))).
  assert (bool_decide (i ≠ 0) && bool_decide (e = - ENODATA) = false) as ->.
  { destruct Hhard as [->|Hne].
    - by rewrite (bool_decide_eq_false_2 (0 ≠ 0)) by auto.
    - by rewrite (bool_decide_eq_false_2 _ Hne), andb_false_r. }
  rewrite (bool_decide_eq_true_2 _ Hneg). simpl.
  unfold chain_getxattr_end. simpl.
  by rewrite bool_decide_eq_false_2 by lia.
Qed.

Lemma chain_getxattr_loop_too_small fuel fn name pre post i size w tr v :
  size ≠ 0 ->
  encodable name i ->
  too_small fn w (key_of name i) v ->
  size < Z.of_nat (length v) ->
  mbind (chain_getxattr_loop (S fuel) fn name (pre ++ post) i
                             (Z.of_nat (length pre)) size)
        (chain_getxattr_end fn name) (State w tr)
  = Ret ((- ERANGE, pre ++ post),
         State w (tr ++ [Getxattr fn (key_of name i) size])).
Proof.
  intros Hs He Hsmall Hlt.
  apply (chain_getxattr_loop_fails fuel fn name (pre ++ post) i _ size w tr
           (- ERANGE) Hs).
  - rewrite length_app. lia.
  - exact He.
  - by apply Hsmall.
  - unfold ERANGE. lia.
  - right. unfold ERANGE, ENODATA. lia.
Qed.

(** A bounded read with less room than the chain needs. *)
Lemma chain_getxattr_short fn name w v :
  header_ok ->
  forall vs i pre post size tr fuel,
    0 <= i ->
    stored fn name w i (vs ++ [v]) ->
    guarded fn name w i (vs ++ [v]) ->
    Forall (fun v => is_block_len (Z.of_nat (length v)) = true) vs ->
    size ≠ 0 -> Z.of_nat (length pre) + size <= INT_MAX ->
    size < Z.of_nat (length (concat (vs ++ [v]))) ->
    Z.of_nat (length post) = size ->
    (length vs < fuel)%nat ->
    exists val' tr',
      mbind (chain_getxattr_loop fuel fn name (pre ++ post) i
                                 (Z.of_nat (length pre)) size)
            (chain_getxattr_end fn name) (State w tr)
      = Ret ((- ERANGE, val'), State w tr').
Proof.
  intros Hok. induction vs as [|v0 vs IH];
    intros i pre post size tr fuel Hi Hst Hg Hblk Hs0 Hint Hshort Hpost Hfuel;
    assert (Hlt : size < 2 ^ 64) by (unfold INT_MAX in Hint; lia).
  - simpl in *. rewrite app_nil_r in Hshort.
    destruct (stored_cons_inv _ _ _ _ _ _ Hst) as (He & _ & _).
    assert (Hsmall : too_small fn w (key_of name i) v) by (by inversion Hg).
    destruct fuel as [|fuel]; [lia|].
    rewrite (chain_getxattr_loop_too_small fuel fn name pre post i size w tr v)
      by done.
    by eexists _, _.
  - simpl app in *.
    destruct (stored_cons_inv _ _ _ _ _ _ Hst) as (He & Hh & Hst').
    assert (Hsmall : too_small fn w (key_of name i) v0) by (by inversion Hg).
    assert (Hg' : guarded fn name w (i + 1) (vs ++ [v])) by (by inversion Hg).
    apply Forall_cons in Hblk as [Hv0 Hvs].
    pose proof (is_block_len_pos _ Hok Hv0) as Hv0pos.
    destruct fuel as [|fuel]; [lia|].
    simpl concat in Hshort. rewrite length_app in Hshort.
    destruct (decide (size < Z.of_nat (length v0))) as [Hlt0|Hge0].
    + rewrite (chain_getxattr_loop_too_small fuel fn name pre post i size w tr v0)
        by (done || lia).
      by eexists _, _.
    + unfold mbind at 1.
      rewrite (chain_getxattr_loop_step _ _ _ _ _ _ _ _ _ _ He Hh);
        [|done|lia|lia|lia|lia].
      rewrite Hv0, andb_true_r.
      destruct (decide (size - Z.of_nat (length v0) = 0)) as [Hz|Hnz].
      * rewrite bool_decide_eq_false_2 by lia. simpl obind.
        assert (Hnext : exists v1 (more : list (list ascii)),
                   vs ++ [v] = v1 :: more /\ 0 < Z.of_nat (length v1)).
        { destruct vs as [|v1 vs'].
          - exists v, []. split; [done|]. simpl in Hshort.
            rewrite app_nil_r in Hshort. lia.
          - exists v1, (vs' ++ [v]). split; [done|].
            apply Forall_cons in Hvs as [Hv1 _].
            by apply (is_block_len_pos _ Hok). }
        destruct Hnext as (v1 & more & Heq & Hv1pos). rewrite Heq in Hst'.
        destruct (stored_cons_inv _ _ _ _ _ _ Hst') as (He1 & [[d Hd] _] & _).
        unfold chain_getxattr_end. simpl.
        rewrite bool_decide_eq_true_2 by lia.
        replace size with (Z.of_nat (length v0)) by lia.
        rewrite Hv0, (mbind_lift _ _ _ _ He1).
        rewrite (mbind_Ret _ _ _ _ _ (sys_getxattr_probe _ _ _ _ _ _ Hd)).
        rewrite bool_decide_eq_true_2 by lia. by eexists _, _.
      * rewrite bool_decide_eq_true_2 by done.
        destruct (IH (i + 1) (pre ++ v0) (drop (length v0) post)
                     (size - Z.of_nat (length v0))
                     (tr ++ [Getxattr fn (key_of name i) size])
                     fuel)
          as (val' & tr' & Hrun); try done; try lia.
        { rewrite length_app. lia. }
        { rewrite length_drop. lia. }
        { simpl in Hfuel. lia. }
        unfold mbind in Hrun at 1. rewrite Hrun. by eexists _, _.
Qed.

Lemma bufferptr_new_ok size w tr :
  malloc_ok size w = true ->
  bufferptr_new size (State w tr)
  = Ret (resize (Z.to_nat size) NUL (junk w), State w tr).
Proof. unfold bufferptr_new, fresh. simpl. by intros ->. Qed.

(** The growing read of a chain: the sizes double until the chain fits. *)
Lemma chain_getxattr_buf_loop_chain fn name w vs v bp fuel_rd :
  header_ok ->
  stored fn name w 0 (vs ++ [v]) ->
  guarded fn name w 0 (vs ++ [v]) ->
  Forall (fun v => is_block_len (Z.of_nat (length v)) = true) vs ->
  encodable name (Z.of_nat (length vs) + 1) ->
  absent fn w (key_of name (Z.of_nat (length vs) + 1)) ->
  (forall n, malloc_ok n w = true) ->
  0 < Z.of_nat (length (concat (vs ++ [v]))) ->
  Z.of_nat (length (concat (vs ++ [v]))) <= INT_MAX ->
  (length vs + 1 < fuel_rd)%nat ->
  forall (k : nat) size tr fuel,
    0 < size ->
    Z.of_nat (length (concat (vs ++ [v]))) <= size * 2 ^ Z.of_nat k ->
    size * 2 ^ Z.of_nat k < 2 ^ 64 ->
    (k < fuel)%nat ->
    exists tr',
      chain_getxattr_buf_loop fuel fuel_rd fn name bp size (State w tr)
      = Ret ((Z.of_nat (length (concat (vs ++ [v]))),
              match bp with
              | Some _ => Some (concat (vs ++ [v]))
              | None => None
              end), State w tr').
Proof.
  intros Hok Hst Hg Hblk He1 Habs Hm Hpos Hint Hrd.
  induction k as [|k IH]; intros size tr fuel Hsize Hreach Hwrap Hfuel.
  - rewrite Z.pow_0_r, Z.mul_1_r in *.
    destruct fuel as [|fuel]; [lia|].
    destruct (chain_getxattr_whole fn name w v Hok vs 0 []
                (resize (Z.to_nat size) NUL (junk w)) size tr fuel_rd)
      as [tr' Hrun]; try done; try lia.
    { rewrite length_resize. lia. }
    exists tr'.
    erewrite chain_getxattr_buf_loop_last;
      [|by apply bufferptr_new_ok
       |unfold chain_getxattr; rewrite bool_decide_eq_false_2 by lia;
        exact Hrun
       |unfold ERANGE; lia].
    rewrite bool_decide_eq_true_2 by lia. simpl.
    change (Z.of_nat 0) with 0. rewrite Z.add_0_l.
    by rewrite Nat2Z.id, take_app_length.
  - assert (Hpow : 2 ^ Z.of_nat (S k) = 2 * 2 ^ Z.of_nat k).
    { rewrite Nat2Z.inj_succ. apply Z.pow_succ_r. lia. }
    rewrite Hpow in *.
    destruct fuel as [|fuel]; [lia|].
    destruct (decide (Z.of_nat (length (concat (vs ++ [v]))) <= size))
      as [Hfits|Hshort].
    + destruct (chain_getxattr_whole fn name w v Hok vs 0 []
                  (resize (Z.to_nat size) NUL (junk w)) size tr fuel_rd)
        as [tr' Hrun]; try done; try nia.
      { rewrite length_resize. lia. }
      exists tr'.
      erewrite chain_getxattr_buf_loop_last;
        [|by apply bufferptr_new_ok
         |unfold chain_getxattr; rewrite bool_decide_eq_false_2 by lia;
          exact Hrun
         |unfold ERANGE; lia].
      rewrite bool_decide_eq_true_2 by lia. simpl.
      change (Z.of_nat 0) with 0. rewrite Z.add_0_l.
      by rewrite Nat2Z.id, take_app_length.
    + destruct (chain_getxattr_short fn name w v Hok vs 0 []
                  (resize (Z.to_nat size) NUL (junk w)) size tr fuel_rd)
        as (val' & tr1 & Hrun);
        [lia|done|done|done|lia|simpl; lia|lia|rewrite length_resize; lia|lia|].
      assert (Hgrow : grown fuel_rd fn name size (State w tr) 1
                            (size_t (size * 2)) (State w tr1)).
      { eapply grown_cons; [by apply bufferptr_new_ok| |apply grown_nil].
        unfold chain_getxattr. rewrite bool_decide_eq_false_2 by lia.
        exact Hrun. }
      change (S fuel) with (1 + fuel)%nat.
      rewrite (chain_getxattr_buf_loop_grown _ _ _ _ _ _ _ _ Hgrow).
      unfold size_t. rewrite Z.mod_small by nia.
      apply IH; nia.
Qed.

End ChainMore.

Lemma store_too_small (fd : Z) (m : Store.attrs) (key v : list ascii) :
  m !! key = Some v -> too_small fd m key v.
Proof.
  intros Hm size Hs Hlt. simpl. unfold Store.getxattr. rewrite Hm.
  rewrite bool_decide_eq_false_2 by done.
  by rewrite bool_decide_eq_true_2 by done.
Qed.

Lemma store_getxattr_le (fd : Z) (m : Store.attrs) (B : Z) :
  0 <= B ->
  map_Forall (fun _ v => Z.of_nat (length v) <= B) m ->
  forall key r d, prim_getxattr fd key 0 m = (r, d) -> r <= B.
Proof.
  intros HB Hall key r d. simpl. unfold Store.getxattr.
  destruct (m !! key) as [v|] eqn:E.
  - apply Hall in E. simpl. intros [= <- _]. lia.
  - intros [= <- _]. unfold ENODATA. lia.
Qed.

(** X5.  The length-only probe returns a negative value only as the
    failure of the get of chunk 0, after that one call: a failure at a
    later index never comes out of it.  This is so as long as the sum of
    the lengths fits [int]: here the gets report at most [B] each, and
    the rounds of the probe times [B] do not pass [INT_MAX]. *)
Theorem X5_getxattr_len_negative `{Hdr : ChainHeader} {H W : Type}
    `{Ops : !XattrOps H W}
    (fn : H) (name : list ascii) (st st' : state H W) (r B : Z)
    (fuel : nat) :
  (forall key r d, prim_getxattr fn key 0 (world st) = (r, d) -> r <= B) ->
  Z.of_nat fuel * B <= INT_MAX ->
  getxattr_len fuel fn name st = Ret (r, st') ->
  r < 0 ->
  exists key d,
    get_raw_xattr_name name 0 RAW_NAME_SIZE = Ret key
    /\ prim_getxattr fn key 0 (world st) = (r, d)
    /\ st' = State (world st) (trace st ++ [Getxattr fn key 0]).
Proof.
  intros HB Hint Hrun Hneg. destruct st as [w tr]. simpl world in *.
  unfold getxattr_len in Hrun.
  by destruct (getxattr_len_loop_sign fuel fn name w B HB 0 0 tr r st'
                 ltac:(done) ltac:(lia) ltac:(done) Hrun Hneg) as [_ ?].
Qed.

Lemma X5_getxattr_len_negative_witness :
  exists key d,
    get_raw_xattr_name (str "nope") 0 RAW_NAME_SIZE = Ret key
    /\ prim_getxattr 0 key 0 (world (Store.init Store.sample)) = (- ENODATA, d)
    /\ State Store.sample [Getxattr 0 (str "nope") 0]
       = State (world (Store.init Store.sample))
               (trace (Store.init Store.sample) ++ [Getxattr 0 key 0]).
Proof.
  apply (X5_getxattr_len_negative 0 (str "nope") (Store.init Store.sample)
           (State Store.sample [Getxattr 0 (str "nope") 0]) (- ENODATA) 250 3).
  - apply store_getxattr_le; [lia|].
    apply (bool_decide_unpack _). vm_compute. exact I.
  - vm_compute. discriminate.
  - vm_compute. reflexivity.
  - unfold ENODATA. lia.
Defined.

(** X6.  A bounded read that has read full chunks and has room left
    returns the failure of the next get as it is, and gives up the bytes
    read so far: any negative code at chunk 0, and any other than "no
    data" at a later chunk.  The failing get is its last call.  The
    capacity is one whose byte counts fit [int]. *)
Theorem X6_chain_getxattr_hard_error `{Hdr : ChainHeader} {H W : Type}
    `{Ops : !XattrOps H W}
    (fn : H) (name val : list ascii) (w : W) (tr : list (syscall H))
    (vs : list (list ascii)) (c e : Z) (fuel : nat) :
  header_ok ->
  stored fn name w 0 vs ->
  Forall (fun v => is_block_len (Z.of_nat (length v)) = true) vs ->
  Z.of_nat (length (concat vs)) < c ->
  c <= INT_MAX ->
  Z.of_nat (length val) = c ->
  encodable name (Z.of_nat (length vs)) ->
  prim_getxattr fn (key_of name (Z.of_nat (length vs)))
                (c - Z.of_nat (length (concat vs))) w = (e, []) ->
  e < 0 ->
  vs = [] \/ e ≠ - ENODATA ->
  (length vs < fuel)%nat ->
  chain_getxattr fuel fn name val c (State w tr)
  = Ret ((e, concat vs ++ drop (length (concat vs)) val),
         State w (tr ++ read_calls fn name 0 c vs
                     ++ [Getxattr fn (key_of name (Z.of_nat (length vs)))
                                  (c - Z.of_nat (length (concat vs)))])).
Proof.
  intros Hok Hst Hblk Hroom Hlt Hval He Hp Hneg Hhard Hfuel.
  unfold chain_getxattr. rewrite bool_decide_eq_false_2 by lia.
  replace fuel with (length vs + S (fuel - length vs - 1))%nat by lia.
  unfold mbind at 1.
  assert (Hmax : INT_MAX < 2 ^ 64) by (unfold INT_MAX; lia).
  rewrite (chain_getxattr_loop_full fn name w 0 vs Hok Hst Hblk _ [] val tr c)
    by (done || (simpl; lia)).
  pose proof (chain_getxattr_loop_fails (fuel - length vs - 1) fn name
                (([] ++ concat vs) ++ drop (length (concat vs)) val)
                (0 + Z.of_nat (length vs))
                (Z.of_nat (length ([] ++ concat vs)))
                (c - Z.of_nat (length (concat vs))) w
                (tr ++ read_calls fn name 0 c vs) e) as Hlast.
  unfold mbind in Hlast at 1. rewrite Hlast; clear Hlast;
    rewrite ?Z.add_0_l.
  - by rewrite <- !app_assoc.
  - lia.
  - rewrite !length_app, length_drop. simpl. lia.
  - done.
  - done.
  - done.
  - destruct Hhard as [-> | ?]; [by left|by right].
Qed.

Lemma X6_chain_getxattr_hard_error_witness :
  chain_fgetxattr 5 0 (str "a@b") (replicate 252 "-"%char) 252
                  (Store.init Store.sample)
  = Ret ((- ERANGE,
          concat [replicate 250 "x"%char]
          ++ drop (length (concat [replicate 250 "x"%char]))
                  (replicate 252 "-"%char)),
         State Store.sample
           ([] ++ read_calls 0 (str "a@b") 0 252 [replicate 250 "x"%char]
               ++ [Getxattr 0 (key_of (str "a@b") (Z.of_nat 1))
                            (252 - Z.of_nat (length (concat [replicate 250 "x"%char])))])).
Proof.
  apply (X6_chain_getxattr_hard_error 0 (str "a@b") (replicate 252 "-"%char)
           Store.sample [] [replicate 250 "x"%char] 252 (- ERANGE) 5).
  - unfold header_ok. simpl. lia.
  - apply stored_cons; [vm_compute; reflexivity| |apply stored_nil].
    apply store_holds. vm_compute. reflexivity.
  - repeat constructor.
  - vm_compute. reflexivity.
  - vm_compute. discriminate.
  - vm_compute. reflexivity.
  - vm_compute. reflexivity.
  - vm_compute. reflexivity.
  - unfold ERANGE. lia.
  - right. unfold ERANGE, ENODATA. lia.
  - simpl. lia.
Defined.

(** X7.  For a chain in a store whose gets report "buffer too small"
    when given less room than a chunk needs, a bounded read with a
    capacity above 0 and below the total length of the chain returns the
    truncation error, on a block boundary or not: never a short count.
    The capacity is one whose byte counts fit [int]. *)
Theorem X7_chain_getxattr_short `{Hdr : ChainHeader} {H W : Type}
    `{Ops : !XattrOps H W}
    (fn : H) (name val : list ascii) (w : W) (tr : list (syscall H))
    (vs : list (list ascii)) (v : list ascii) (c : Z) (fuel : nat) :
  header_ok ->
  stored fn name w 0 (vs ++ [v]) ->
  guarded fn name w 0 (vs ++ [v]) ->
  Forall (fun v => is_block_len (Z.of_nat (length v)) = true) vs ->
  0 < c ->
  c < Z.of_nat (length (concat (vs ++ [v]))) ->
  c <= INT_MAX ->
  Z.of_nat (length val) = c ->
  (length vs < fuel)%nat ->
  exists val' tr',
    chain_getxattr fuel fn name val c (State w tr)
    = Ret ((- ERANGE, val'), State w tr').
Proof.
  intros Hok Hst Hg Hblk Hpos Hshort Hlt Hval Hfuel.
  unfold chain_getxattr. rewrite bool_decide_eq_false_2 by lia.
  apply (chain_getxattr_short fn name w v Hok vs 0 [] val c tr fuel);
    done || (simpl; lia).
Qed.

Lemma X7_chain_getxattr_short_witness :
  exists val' tr',
    chain_fgetxattr 5 0 (str "a@b") (replicate 100 "-"%char) 100
                    (Store.init Store.sample)
    = Ret ((- ERANGE, val'), State Store.sample tr').
Proof.
  apply (X7_chain_getxattr_short 0 (str "a@b") (replicate 100 "-"%char)
           Store.sample [] [replicate 250 "x"%char] (str "hello") 100 5).
  - unfold header_ok. simpl. lia.
  - apply stored_cons; [vm_compute; reflexivity| |].
    { apply store_holds. vm_compute. reflexivity. }
    apply stored_cons; [vm_compute; reflexivity| |apply stored_nil].
    apply store_holds. vm_compute. reflexivity.
  - apply guarded_cons; [apply store_too_small; vm_compute; reflexivity|].
    apply guarded_cons; [apply store_too_small; vm_compute; reflexivity|].
    apply guarded_nil.
  - repeat constructor.
  - lia.
  - vm_compute. reflexivity.
  - vm_compute. discriminate.
  - vm_compute. reflexivity.
  - simpl. lia.
Defined.

(** X8.  The growing read of a chain of total length [L > 0], in such a
    store and with allocations that succeed: when [1024 * 2^k] reaches
    [L] without leaving [size_t], the read returns [L] within [k + 1]
    rounds and hands over, through [bp], exactly the chunks one after
    the other.  The result is an [int], so [L] is at most [INT_MAX]. *)
Theorem X8_chain_getxattr_buf_whole `{Hdr : ChainHeader} {H W : Type}
    `{Ops : !XattrOps H W}
    (fn : H) (name : list ascii) (bp : option (list ascii)) (w : W)
    (tr : list (syscall H)) (vs : list (list ascii)) (v : list ascii)
    (L : Z) (k fuel fuel_rd : nat) :
  header_ok ->
  stored fn name w 0 (vs ++ [v]) ->
  guarded fn name w 0 (vs ++ [v]) ->
  Forall (fun v => is_block_len (Z.of_nat (length v)) = true) vs ->
  encodable name (Z.of_nat (length vs) + 1) ->
  absent fn w (key_of name (Z.of_nat (length vs) + 1)) ->
  (forall n, malloc_ok n w = true) ->
  L = Z.of_nat (length (concat (vs ++ [v]))) ->
  0 < L ->
  L <= INT_MAX ->
  L <= 1024 * 2 ^ Z.of_nat k ->
  1024 * 2 ^ Z.of_nat k < 2 ^ 64 ->
  (k < fuel)%nat ->
  (length vs + 1 < fuel_rd)%nat ->
  exists tr',
    chain_getxattr_buf fuel fuel_rd fn name bp (State w tr)
    = Ret ((L, match bp with
               | Some _ => Some (concat (vs ++ [v]))
               | None => None
               end), State w tr').
Proof.
  intros Hok Hst Hg Hblk He1 Habs Hm -> Hpos Hint Hreach Hwrap Hfuel Hrd.
  unfold chain_getxattr_buf.
  by apply (chain_getxattr_buf_loop_chain fn name w vs v bp fuel_rd Hok Hst Hg
              Hblk He1 Habs Hm Hpos Hint Hrd k 1024 tr fuel).
Qed.

Lemma X8_chain_getxattr_buf_whole_witness :
  exists tr',
    chain_getxattr_buf 3 3 0 (str "big") (Some []) (Store.init Store.big)
    = Ret ((1500, Some (concat ([] ++ [replicate 1500 "y"%char]))),
           State Store.big tr').
Proof.
  apply (X8_chain_getxattr_buf_whole 0 (str "big") (Some []) Store.big []
           [] (replicate 1500 "y"%char) 1500 1 3 3).
  - unfold header_ok. simpl. lia.
  - apply stored_cons; [vm_compute; reflexivity| |apply stored_nil].
    apply store_holds. vm_compute. reflexivity.
  - apply guarded_cons; [apply store_too_small; vm_compute; reflexivity|].
    apply guarded_nil.
  - constructor.
  - vm_compute. reflexivity.
  - apply store_absent. vm_compute. reflexivity.
  - reflexivity.
  - vm_compute. reflexivity.
  - lia.
  - vm_compute. discriminate.
  - vm_compute. discriminate.
  - vm_compute. reflexivity.
  - lia.
  - simpl. lia.
Defined.

(** X9.  An attribute stored with an empty value is not an absent one:
    its growing read returns 0 and leaves [bp] alone. *)
Theorem X9_chain_getxattr_buf_empty `{Hdr : ChainHeader} {H W : Type}
    `{Ops : !XattrOps H W}
    (fn : H) (name : list ascii) (bp : option (list ascii)) (w : W)
    (tr : list (syscall H)) (fuel fuel_rd : nat) :
  header_ok ->
  stored fn name w 0 [[]] ->
  encodable name 1 ->
  absent fn w (key_of name 1) ->
  malloc_ok 1024 w = true ->
  (0 < fuel)%nat ->
  (1 < fuel_rd)%nat ->
  exists tr',
    chain_getxattr_buf fuel fuel_rd fn name bp (State w tr)
    = Ret ((0, bp), State w tr').
Proof.
  intros Hok Hst He1 Habs Hm Hfuel Hrd.
  destruct (chain_getxattr_whole fn name w [] Hok [] 0 []
              (resize (Z.to_nat 1024) NUL (junk w)) 1024 tr fuel_rd)
    as [tr' Hrun]; try done.
  { by rewrite length_resize. }
  exists tr'. unfold chain_getxattr_buf.
  destruct fuel as [|fuel]; [lia|].
  erewrite chain_getxattr_buf_loop_last;
    [|by apply bufferptr_new_ok
     |unfold chain_getxattr; rewrite bool_decide_eq_false_2 by lia; exact Hrun
     |unfold ERANGE; simpl; lia].
  reflexivity.
Qed.

Lemma X9_chain_getxattr_buf_empty_witness :
  exists tr',
    chain_getxattr_buf 2 2 0 (str "e") (Some (str "old")) (Store.init Store.hollow)
    = Ret ((0, Some (str "old")), State Store.hollow tr').
Proof.
  apply (X9_chain_getxattr_buf_empty 0 (str "e") (Some (str "old"))
           Store.hollow [] 2 2).
  - unfold header_ok. simpl. lia.
  - apply stored_cons; [vm_compute; reflexivity| |apply stored_nil].
    apply store_holds. vm_compute. reflexivity.
  - vm_compute. reflexivity.
  - apply store_absent. vm_compute. reflexivity.
  - reflexivity.
  - lia.
  - lia.
Defined.

(** ** Removal and the other attributes *)

Section RemoveMore.
Context `{Hdr : ChainHeader} {H W : Type} `{Ops : !XattrOps H W}.

Implicit Types (fn : H) (w : W) (tr : list (syscall H)) (st : state H W).
Implicit Types (name key val : list ascii).






(** *** Reads depend on the gets of the keys of the name only *)


Lemma same_answer_lift {A} w w' (o : outcome A) st st' :
  world st = w -> world st' = w' ->
  same_answer w w' (lift o st) (lift o st').
Proof. intros Hs Hs'. unfold lift. by destruct o. Qed.

Lemma same_answer_mret {A} w w' (a : A) st st' :
  world st = w -> world st' = w' ->
  same_answer w w' (mret a st) (mret a st').
Proof. done. Qed.







End RemoveMore.






(** ** The bounded read and its buffer *)

Section BoundMore.
Context `{Hdr : ChainHeader} {H W : Type} `{Ops : !XattrOps H W}.

Implicit Types (fn : H) (w : W) (tr : list (syscall H)) (st : state H W).
Implicit Types (name key val buf data : list ascii).

(** The loop of the bounded read keeps the bytes read and the room left
    together where they were; [pos] is the count of the bytes read,
    taken in [int]. *)
Lemma chain_getxattr_loop_within fn name w :
  get_within fn w ->
  forall fuel val i pos pt size tr l st',
    0 <= pt -> pos = c_int pt -> 0 < size -> size < 2 ^ 64 ->
    chain_getxattr_loop fuel fn name val i pos size (State w tr)
    = Ret (l, st') ->
    world st' = w /\ length (l_val l) = length val
    /\ l_pos l <= pt + size /\ (l_r l < 0 -> l_ret l <= pt + size).
Proof.
  intros Hin. induction fuel as [|fuel IH];
    intros val i pos pt size tr l st' Hpt Hpos Hsz Hlt Hrun; [done|].
  pose proof (c_int_le pt Hpt) as Hle.
  rewrite chain_getxattr_loop_S in Hrun.
  unfold mbind at 1, lift in Hrun.
  destruct (get_raw_xattr_name name i RAW_NAME_SIZE) as [raw| | |];
    try done.
  cbv beta iota delta [obind] in Hrun.
  unfold mbind at 1, sys_getxattr in Hrun. simpl world in Hrun.
  destruct (prim_getxattr fn raw size w) as [r d] eqn:Ep.
  rewrite (bool_decide_eq_false_2 (size = 0)) in Hrun by lia.
  destruct (poke val pos d) as [val1| | |] eqn:Epk; try done.
  cbv beta iota delta [obind log] in Hrun. simpl world in Hrun.
  simpl trace in Hrun.
  apply poke_length in Epk. pose proof (Hin _ _ _ _ Hsz Ep) as Hr.
  destruct (bool_decide (i ≠ 0) && bool_decide (r = - ENODATA)).
  { inversion Hrun; subst. simpl. repeat split; [done|lia|lia]. }
  case_bool_decide as Hneg.
  { inversion Hrun; subst. simpl. repeat split; [done|lia|lia]. }
  case_bool_decide as Hgt.
  - assert (Hsize : size_t (size - r) = size - r).
    { unfold size_t. apply Z.mod_small. lia. }
    rewrite Hsize in Hrun.
    assert (Hnew : c_int (pos + r) = c_int (pt + r))
      by (subst pos; apply c_int_add_l).
    pose proof (c_int_le (pt + r) ltac:(lia)) as Hle'.
    destruct (bool_decide (size - r ≠ 0) && is_block_len r) eqn:Hc.
    + apply andb_true_iff in Hc as [Hnz _]. apply bool_decide_eq_true in Hnz.
      apply (IH _ _ _ (pt + r)) in Hrun as (? & ? & ? & ?);
        [|lia|done|lia|lia].
      repeat split; [done|congruence|lia|lia].
    + inversion Hrun; subst. simpl. repeat split; [done|lia|lia].
  - destruct (bool_decide (size ≠ 0) && is_block_len r).
    + apply (IH _ _ _ pt) in Hrun as (? & ? & ? & ?); [|lia|done|lia|lia].
      repeat split; [done|congruence|lia|lia].
    + inversion Hrun; subst. simpl. repeat split; [done|lia|lia].
Qed.

(** The result of the bounded read, its buffer and the store. *)
Lemma chain_getxattr_bound fn name val val' size r st st' fuel :
  get_within fn (world st) ->
  0 < size ->
  size < 2 ^ 64 ->
  chain_getxattr fuel fn name val size st = Ret ((r, val'), st') ->
  r <= size /\ length val' = length val /\ world st' = world st.
Proof.
  intros Hin Hsz Hlt Hrun. destruct st as [w tr]. simpl world in *.
  unfold chain_getxattr in Hrun.
  rewrite bool_decide_eq_false_2 in Hrun by lia.
  unfold mbind at 1 in Hrun.
  destruct (chain_getxattr_loop fuel fn name val 0 0 size (State w tr))
    as [[l st1]| | |] eqn:El; try done.
  apply (chain_getxattr_loop_within fn name w Hin _ _ _ _ 0) in El
    as (Hw & Hlen & Hp & Hret); [|lia|done|lia|lia].
  cbv beta iota delta [obind] in Hrun. unfold chain_getxattr_end in Hrun.
  case_bool_decide as Hr.
  - destruct (is_block_len (l_chunk_size l)).
    + unfold mbind at 1, lift in Hrun.
      destruct (get_raw_xattr_name name (l_i l) RAW_NAME_SIZE) as [raw| | |];
        try done.
      cbv beta iota delta [obind] in Hrun.
      unfold mbind, sys_getxattr in Hrun.
      destruct (prim_getxattr fn raw 0 (world st1)) as [r1 d1].
      rewrite (bool_decide_eq_true_2 (0 = 0)) in Hrun by done.
      cbv beta iota delta [obind] in Hrun.
      case_bool_decide; inversion Hrun; subst; simpl;
        (split; [unfold ERANGE; lia|done]).
    + inversion Hrun; subst. split; [lia|done].
  - inversion Hrun; subst. split; [lia|done].
Qed.

(** The encoder stores inside [raw_name] or stops at an assertion. *)
Lemma get_raw_xattr_name_loop_defined name pos raw_len :
  get_raw_xattr_name_loop name pos raw_len ≠ Undef.
Proof.
  revert pos. induction name as [|ch name IH]; intros pos; simpl; [done|].
  destruct (decide (ch = AT)); case_bool_decide; try done.
  - specialize (IH (pos + 2)).
    by destruct (get_raw_xattr_name_loop name (pos + 2) raw_len) as [[? ?]| | |].
  - specialize (IH (pos + 1)).
    by destruct (get_raw_xattr_name_loop name (pos + 1) raw_len) as [[? ?]| | |].
Qed.

Lemma get_raw_xattr_name_defined name i raw_len :
  get_raw_xattr_name name i raw_len ≠ Undef.
Proof.
  unfold get_raw_xattr_name.
  pose proof (get_raw_xattr_name_loop_defined name 0 raw_len).
  destruct (get_raw_xattr_name_loop name 0 raw_len) as [[out pos]| | |];
    simpl; try done.
  by repeat case_bool_decide.
Qed.

(** The stores of the read loop stay inside the buffer, as long as the
    bytes read and the room left together fit both the buffer and
    [int]. *)
Lemma chain_getxattr_loop_safe fn name w :
  get_fits fn w ->
  forall fuel val i pos size tr,
    0 <= pos -> 0 < size -> pos + size <= INT_MAX ->
    pos + size <= Z.of_nat (length val) ->
    chain_getxattr_loop fuel fn name val i pos size (State w tr) ≠ Undef.
Proof.
  intros Hfit. induction fuel as [|fuel IH];
    intros val i pos size tr Hpos Hsz Hint Hbuf; [done|].
  assert (Hmax : INT_MAX < 2 ^ 64) by (unfold INT_MAX; lia).
  rewrite chain_getxattr_loop_S. unfold mbind at 1, lift.
  pose proof (get_raw_xattr_name_defined name i RAW_NAME_SIZE).
  destruct (get_raw_xattr_name name i RAW_NAME_SIZE) as [raw| | |];
    try done.
  cbv beta iota delta [obind].
  unfold mbind at 1, sys_getxattr. simpl world.
  destruct (prim_getxattr fn raw size w) as [r d] eqn:Ep.
  destruct (Hfit _ _ _ _ Hsz Ep) as [Hr Hd].
  rewrite (bool_decide_eq_false_2 (size = 0)) by lia.
  destruct (poke val pos d) as [val1| | |] eqn:Epk;
    try (unfold poke in Epk; rewrite bool_decide_eq_true_2 in Epk by lia;
         done).
  apply poke_length in Epk.
  cbv beta iota delta [obind log]. simpl world. simpl trace.
  destruct (bool_decide (i ≠ 0) && bool_decide (r = - ENODATA)); [done|].
  case_bool_decide; [done|].
  case_bool_decide.
  - rewrite c_int_small by lia.
    assert (Hsize : size_t (size - r) = size - r).
    { unfold size_t. apply Z.mod_small. lia. }
    rewrite Hsize.
    destruct (bool_decide (size - r ≠ 0) && is_block_len r) eqn:Hc; [|done].
    apply andb_true_iff in Hc as [Hnz _]. apply bool_decide_eq_true in Hnz.
    apply IH; lia.
  - destruct (bool_decide (size ≠ 0) && is_block_len r); [|done].
    apply IH; lia.
Qed.

Lemma chain_getxattr_safe fn name val size w tr fuel :
  get_fits fn w ->
  0 < size -> size <= INT_MAX -> size <= Z.of_nat (length val) ->
  chain_getxattr fuel fn name val size (State w tr) ≠ Undef.
Proof.
  intros Hfit Hsz Hint Hbuf. unfold chain_getxattr.
  rewrite bool_decide_eq_false_2 by lia. unfold mbind at 1.
  pose proof (chain_getxattr_loop_safe fn name w Hfit fuel val 0 0 size tr
                ltac:(done) Hsz ltac:(lia) ltac:(lia)) as Hloop.
  destruct (chain_getxattr_loop fuel fn name val 0 0 size (State w tr))
    as [[l st1]| | |]; try done.
  cbv beta iota delta [obind]. unfold chain_getxattr_end.
  case_bool_decide; [|done].
  destruct (is_block_len (l_chunk_size l)); [|done].
  unfold mbind at 1, lift.
  pose proof (get_raw_xattr_name_defined name (l_i l) RAW_NAME_SIZE).
  destruct (get_raw_xattr_name name (l_i l) RAW_NAME_SIZE) as [raw| | |];
    try done.
  cbv beta iota delta [obind]. unfold mbind, sys_getxattr.
  destruct (prim_getxattr fn raw 0 (world st1)) as [r1 d1].
  rewrite (bool_decide_eq_true_2 (0 = 0)) by done.
  cbv beta iota delta [obind]. by case_bool_decide.
Qed.

(** The rounds of the growing read while the doubled size stays within
    [size_t]. *)
Lemma chain_getxattr_buf_loop_result fuel_rd fn name bp w :
  get_within fn w ->
  forall fuel size tr r bp' st',
    0 < size -> size * 2 ^ Z.of_nat fuel <= 2 ^ 64 ->
    chain_getxattr_buf_loop fuel fuel_rd fn name bp size (State w tr)
    = Ret ((r, bp'), st') ->
    world st' = w /\ r ≠ - ERANGE /\ (r <= 0 -> bp' = bp)
    /\ (0 < r ->
        match bp with
        | Some _ => exists buf, bp' = Some buf /\ Z.of_nat (length buf) = r
        | None => bp' = None
        end).
Proof.
  intros Hin. induction fuel as [|fuel IH];
    intros size tr r bp' st' Hsz Hfit Hrun; [done|].
  assert (Hlt : size < 2 ^ 64).
  { rewrite Nat2Z.inj_succ, Z.pow_succ_r in Hfit by lia.
    assert (0 < 2 ^ Z.of_nat fuel) by (apply Z.pow_pos_nonneg; lia). nia. }
  simpl in Hrun. unfold mbind at 1, bufferptr_new in Hrun.
  simpl world in Hrun. destruct (malloc_ok size w); [|done].
  unfold fresh in Hrun. cbv beta iota delta [obind] in Hrun.
  simpl world in Hrun. unfold mbind at 1 in Hrun.
  destruct (chain_getxattr fuel_rd fn name
              (resize (Z.to_nat size) NUL (junk w)) size (State w tr))
    as [[[r1 buf1] st1]| | |] eqn:Erd; try done.
  apply chain_getxattr_bound in Erd as (Hr1 & Hlen & Hw); [|done|done|done].
  simpl world in Hw. rewrite length_resize in Hlen.
  cbv beta iota delta [obind] in Hrun.
  case_bool_decide as Hpos.
  { inversion Hrun; subst. repeat split; [unfold ERANGE; lia|lia|].
    intros _. destruct bp; [|done].
    eexists. split; [done|]. rewrite length_take. lia. }
  case_bool_decide as Hz.
  { inversion Hrun; subst. repeat split; [unfold ERANGE; lia|lia]. }
  case_bool_decide as He.
  - destruct fuel as [|fuel]; [done|].
    assert (Hdbl : size_t (size * 2) = size * 2).
    { unfold size_t. apply Z.mod_small.
      rewrite !Nat2Z.inj_succ, !Z.pow_succ_r in Hfit by lia.
      assert (0 < 2 ^ Z.of_nat fuel) by (apply Z.pow_pos_nonneg; lia). nia. }
    rewrite Hdbl in Hrun. destruct st1 as [w1 tr1]. simpl in Hw. subst w1.
    apply IH in Hrun; [done|lia|].
    rewrite Nat2Z.inj_succ, Z.pow_succ_r in Hfit by lia. lia.
  - inversion Hrun; subst. repeat split; [done|lia].
Qed.

End BoundMore.

Lemma store_get_within (fd : Z) (m : Store.attrs) : get_within fd m.
Proof.
  intros key size r d Hsz. simpl. unfold Store.getxattr.
  destruct (m !! key) as [v|]; [|intros [= <- _]; unfold ENODATA; lia].
  rewrite bool_decide_eq_false_2 by lia.
  case_bool_decide; intros [= <- _]; [unfold ERANGE|]; lia.
Qed.

Lemma store_get_fits (fd : Z) (m : Store.attrs) : get_fits fd m.
Proof.
  intros key size r d Hsz. simpl. unfold Store.getxattr.
  destruct (m !! key) as [v|];
    [|intros [= <- <-]; unfold ENODATA; simpl; lia].
  rewrite bool_decide_eq_false_2 by lia.
  case_bool_decide; intros [= <- <-]; [unfold ERANGE; simpl|]; lia.
Qed.

(** X12.  A bounded read stays inside the caller's buffer: with a
    capacity above 0 that fits [int], a buffer of at least that many
    bytes, and a primitive get that never reports or stores more bytes
    than it had room for, no store of the read falls outside the buffer,
    however many rounds it makes; and what it returns is never more than
    the capacity. *)
Theorem X12_chain_getxattr_in_bounds `{Hdr : ChainHeader} {H W : Type}
    `{Ops : !XattrOps H W}
    (fn : H) (name val : list ascii) (size : Z) (w : W)
    (tr : list (syscall H)) (fuel : nat) :
  get_fits fn w ->
  0 < size ->
  size <= INT_MAX ->
  size <= Z.of_nat (length val) ->
  chain_getxattr fuel fn name val size (State w tr) ≠ Undef
  /\ forall r val' st',
       chain_getxattr fuel fn name val size (State w tr)
       = Ret ((r, val'), st') ->
       r <= size.
Proof.
  intros Hfit Hsz Hint Hbuf. split; [by apply chain_getxattr_safe|].
  intros r val' st' Hrun.
  apply chain_getxattr_bound in Hrun as [Hr _]; [done| |done|].
  - intros key s r0 d Hs Hp. by destruct (Hfit _ _ _ _ Hs Hp).
  - unfold INT_MAX in Hint. lia.
Qed.

Lemma X12_chain_getxattr_in_bounds_witness :
  chain_fgetxattr 5 0 (str "a@b") (replicate 300 "-"%char) 300
                  (Store.init Store.sample) ≠ Undef
  /\ forall r val' st',
       chain_fgetxattr 5 0 (str "a@b") (replicate 300 "-"%char) 300
                       (Store.init Store.sample)
       = Ret ((r, val'), st') ->
       r <= 300.
Proof.
  apply (X12_chain_getxattr_in_bounds 0 (str "a@b") (replicate 300 "-"%char)
           300 Store.sample [] 5).
  - apply store_get_fits.
  - lia.
  - vm_compute. discriminate.
  - vm_compute. discriminate.
Defined.

(** ** Listing into a destination that is too small *)

Section ListMore.
Context `{Hdr : ChainHeader} {H W : Type} `{Ops : !XattrOps H W}.

Implicit Types (fn : H) (w : W) (tr : list (syscall H)) (st : state H W).
Implicit Types (name key val out rest seen slack : list ascii).

(** One round of the loop at a chunk-0 key whose name does not fit what
    is left of the destination. *)
Lemma chain_listxattr_loop_short name fuel seen slack out rest end_ st :
  header_ok -> cstring name -> encodable name 0 ->
  Z.of_nat (length seen) < end_ ->
  (length rest < length name)%nat ->
  chain_listxattr_loop (S fuel) (seen ++ key_of name 0 ++ NUL :: slack)
    (Z.of_nat (length seen)) end_
    (out ++ rest) (Z.of_nat (length out))
    (Z.of_nat (length out + length rest)) st
  = Ret ((- ERANGE, out ++ rest), st).
Proof.
  intros Hok Hc He Hend Hshort. simpl chain_listxattr_loop.
  rewrite bool_decide_eq_true_2 by done.
  unfold mbind at 1. unfold fresh at 1. simpl obind.
  rewrite (bool_decide_eq_true_2 (0 <= _)) by lia.
  rewrite Nat2Z.id, drop_app_length.
  rewrite (mbind_lift _ _ _ _ (c_str_app _ _ (key_of_cstring _ 0 Hc))).
  assert (Hbuf : Z.of_nat (length (resize (Z.to_nat RAW_NAME_SIZE) NUL
                                          (junk (world st))))
                 = RAW_NAME_SIZE).
  { rewrite length_resize. pose proof (encodable_length _ _ Hok He). lia. }
  rewrite (mbind_lift _ _ _ _
             (translate_raw_name_key name 0 _ _ Hok Hc He Hbuf)).
  rewrite (bool_decide_eq_true_2 (0 = 0)) by done.
  by rewrite bool_decide_eq_true_2 by lia.
Qed.

(** The same round when exactly the characters of the name fit: the
    test lets the copy through, and its terminator falls outside. *)
Lemma chain_listxattr_loop_overrun name fuel seen slack out rest end_ st :
  header_ok -> cstring name -> encodable name 0 ->
  Z.of_nat (length seen) < end_ ->
  length rest = length name ->
  chain_listxattr_loop (S fuel) (seen ++ key_of name 0 ++ NUL :: slack)
    (Z.of_nat (length seen)) end_
    (out ++ rest) (Z.of_nat (length out))
    (Z.of_nat (length out + length rest)) st
  = Undef.
Proof.
  intros Hok Hc He Hend Hexact. simpl chain_listxattr_loop.
  rewrite bool_decide_eq_true_2 by done.
  unfold mbind at 1. unfold fresh at 1. simpl obind.
  rewrite (bool_decide_eq_true_2 (0 <= _)) by lia.
  rewrite Nat2Z.id, drop_app_length.
  rewrite (mbind_lift _ _ _ _ (c_str_app _ _ (key_of_cstring _ 0 Hc))).
  assert (Hbuf : Z.of_nat (length (resize (Z.to_nat RAW_NAME_SIZE) NUL
                                          (junk (world st))))
                 = RAW_NAME_SIZE).
  { rewrite length_resize. pose proof (encodable_length _ _ Hok He). lia. }
  rewrite (mbind_lift _ _ _ _
             (translate_raw_name_key name 0 _ _ Hok Hc He Hbuf)).
  rewrite (bool_decide_eq_true_2 (0 = 0)) by done.
  rewrite bool_decide_eq_false_2 by lia.
  unfold mbind, lift, strcpy. rewrite c_str_app by done.
  cbv beta iota delta [obind]. unfold poke.
  rewrite bool_decide_eq_false_2; [done|].
  rewrite !length_app. simpl. lia.
Qed.

(** The listing up to its loop, for a stream that is not empty. *)
Lemma chain_listxattr_to_loop fn names len w tr r0 d0 keys :
  prim_listxattr fn 0 w = (r0, d0) ->
  0 <= r0 ->
  r0 < 2 ^ 30 ->
  malloc_ok (r0 * 2) w = true ->
  prim_listxattr fn (r0 * 2) w = (Z.of_nat (length keys), keys) ->
  Z.of_nat (length keys) <= r0 * 2 ->
  keys ≠ [] ->
  len ≠ 0 ->
  chain_listxattr fn names len (State w tr)
  = chain_listxattr_loop (length keys)
      (keys ++ drop (length keys) (resize (Z.to_nat (r0 * 2)) NUL (junk w)))
      0 (Z.of_nat (length keys)) names 0 len
      (State w (tr ++ [Listxattr fn 0; Listxattr fn (r0 * 2)])).
Proof.
  intros Hp0 Hr0 Hsmall Hm Hp Hfit Hne Hlen.
  assert (0 < Z.of_nat (length keys)) by (destruct keys; [done|simpl; lia]).
  assert (Htot : size_t (c_int (r0 * 2)) = r0 * 2).
  { rewrite c_int_small by (unfold INT_MAX; lia).
    unfold size_t. apply Z.mod_small. lia. }
  unfold chain_listxattr. rewrite bool_decide_eq_false_2 by done.
  rewrite (mbind_Ret _ _ _ _ _ (sys_listxattr_probe _ _ _ _ _ Hp0)).
  rewrite bool_decide_eq_false_2 by lia. rewrite Htot.
  unfold mbind at 1, malloc at 1. simpl world. rewrite Hm.
  unfold mbind at 1, fresh at 1, mret at 1. simpl obind.
  set (fb := resize (Z.to_nat (r0 * 2)) NUL (junk w)).
  unfold mbind, sys_listxattr. simpl world. rewrite Hp.
  rewrite (bool_decide_eq_false_2 (r0 * 2 = 0)) by lia.
  assert (Hpoke : poke fb 0 keys = Ret (keys ++ drop (length keys) fb)).
  { apply (poke_app [] fb). unfold fb. rewrite length_resize. lia. }
  rewrite Hpoke. simpl obind. rewrite bool_decide_eq_false_2 by lia.
  unfold log. simpl. by rewrite Nat2Z.id, <- app_assoc.
Qed.

End ListMore.

(** X13.  A listing into a destination of [len > 0] bytes that has room
    for the names before a chunk-0 key but not for the name of that key:
    when fewer bytes are left than the name has characters, the listing
    returns the truncation error with the earlier names already written;
    when exactly as many bytes are left, the bounds test passes and the
    copy stores the terminator one byte past the end of the
    destination.  The size of the stream is doubled in [int], so the
    size [r0] the primitive reports is below [2^30]. *)
Theorem X13_list_destination_too_small `{Hdr : ChainHeader} {H W : Type}
    `{Ops : !XattrOps H W}
    (fn : H) (names name : list ascii) (len : Z) (w : W)
    (tr : list (syscall H)) (es1 es2 : list (list ascii * Z))
    (r0 : Z) (d0 : list ascii) :
  header_ok ->
  Forall (fun e => cstring (fst e) /\ encodable (fst e) (snd e))
         (es1 ++ (name, 0) :: es2) ->
  prim_listxattr fn 0 w = (r0, d0) ->
  0 <= r0 ->
  r0 < 2 ^ 30 ->
  malloc_ok (r0 * 2) w = true ->
  prim_listxattr fn (r0 * 2) w
  = (Z.of_nat (length (physical_keys (es1 ++ (name, 0) :: es2))),
     physical_keys (es1 ++ (name, 0) :: es2)) ->
  Z.of_nat (length (physical_keys (es1 ++ (name, 0) :: es2))) <= r0 * 2 ->
  0 < len ->
  Z.of_nat (length names) = len ->
  Z.of_nat (length (logical_names es1)) <= len ->
  (len < Z.of_nat (length (logical_names es1) + length name) ->
   chain_listxattr fn names len (State w tr)
   = Ret ((- ERANGE,
           logical_names es1 ++ drop (length (logical_names es1)) names),
          State w (tr ++ [Listxattr fn 0; Listxattr fn (r0 * 2)])))
  /\ (len = Z.of_nat (length (logical_names es1) + length name) ->
      chain_listxattr fn names len (State w tr) = Undef).
Proof.
  intros Hok Hes Hp0 Hr0 Hsmall Hm Hp Hfit Hlen Hnames Hroom.
  apply Forall_app in Hes as [Hes1 Hes2].
  apply Forall_cons in Hes2 as [[Hc He] _]. simpl in Hc, He.
  pose proof (physical_keys_length (es1 ++ (name, 0) :: es2)) as Hcount.
  rewrite length_app in Hcount. simpl in Hcount.
  assert (Hrun : chain_listxattr fn names len (State w tr)
    = chain_listxattr_loop
        (S (length (physical_keys (es1 ++ (name, 0) :: es2))
            - length es1 - 1))
        (physical_keys es1 ++ key_of name 0 ++ NUL :: physical_keys es2
           ++ drop (length (physical_keys (es1 ++ (name, 0) :: es2)))
                   (resize (Z.to_nat (r0 * 2)) NUL (junk w)))
        (Z.of_nat (length (physical_keys es1)))
        (Z.of_nat (length (physical_keys (es1 ++ (name, 0) :: es2))))
        (logical_names es1 ++ drop (length (logical_names es1)) names)
        (Z.of_nat (length (logical_names es1)))
        (Z.of_nat (length (logical_names es1)
                   + length (drop (length (logical_names es1)) names)))
        (State w (tr ++ [Listxattr fn 0; Listxattr fn (r0 * 2)]))).
  { rewrite (chain_listxattr_to_loop fn names len w tr r0 d0 _ Hp0 Hr0 Hsmall
               Hm Hp Hfit);
      [|intros Heq; apply (f_equal length) in Heq;
        rewrite physical_keys_app, physical_keys_cons, !length_app in Heq;
        simpl in Heq; lia
       |lia].
    set (slack := drop _ (resize _ _ _)).
    set (n := length (physical_keys (es1 ++ (name, 0) :: es2))) in *.
    replace n with (length es1 + S (n - length es1 - 1))%nat at 1 by lia.
    pose proof (chain_listxattr_loop_prefix es1 Hok Hes1
                  (S (n - length es1 - 1)) []
                  (key_of name 0 ++ NUL :: physical_keys es2 ++ slack)
                  [] names (Z.of_nat n)
                  (State w (tr ++ [Listxattr fn 0; Listxattr fn (r0 * 2)])))
      as Hpre.
    cbn [app length Nat.add] in Hpre. change (Z.of_nat 0) with 0 in Hpre.
    rewrite physical_keys_app, physical_keys_cons.
    rewrite <- !app_assoc. simpl app.
    replace len with (Z.of_nat (length names)) by done.
    rewrite Hpre; [|lia| |].
    - f_equal. rewrite length_drop. lia.
    - unfold n. rewrite physical_keys_app, length_app. lia.
    - unfold n in Hfit. rewrite physical_keys_app, length_app in Hfit.
      unfold INT_MAX. lia. }
  rewrite Hrun. split; intros Hcase.
  - apply chain_listxattr_loop_short; try done.
    + rewrite physical_keys_app, physical_keys_cons, !length_app. simpl. lia.
    + rewrite length_drop. lia.
  - apply chain_listxattr_loop_overrun; try done.
    + rewrite physical_keys_app, physical_keys_cons, !length_app. simpl. lia.
    + rewrite length_drop. lia.
Qed.

Lemma X13_list_destination_too_small_witness :
  (4 < Z.of_nat (length (logical_names [(str "c", 0)]) + length (str "a@b")) ->
   chain_flistxattr 0 (replicate 4 "-"%char) 4 (Store.init Store.sample)
   = Ret ((- ERANGE,
           logical_names [(str "c", 0)]
           ++ drop (length (logical_names [(str "c", 0)]))
                   (replicate 4 "-"%char)),
          State Store.sample ([] ++ [Listxattr 0 0; Listxattr 0 (14 * 2)])))
  /\ (4 = Z.of_nat (length (logical_names [(str "c", 0)]) + length (str "a@b")) ->
      chain_flistxattr 0 (replicate 4 "-"%char) 4 (Store.init Store.sample)
      = Undef).
Proof.
  apply (X13_list_destination_too_small 0 (replicate 4 "-"%char) (str "a@b")
           4 Store.sample [] [(str "c", 0)] [(str "a@b", 1)] 14 []).
  - unfold header_ok. simpl. lia.
  - repeat constructor; simpl;
      try (apply (bool_decide_unpack _); vm_compute; exact I);
      vm_compute; reflexivity.
  - vm_compute. reflexivity.
  - lia.
  - lia.
  - reflexivity.
  - vm_compute. reflexivity.
  - vm_compute. discriminate.
  - lia.
  - vm_compute. reflexivity.
  - vm_compute. discriminate.
Defined.

(** X14.  The size a listing with [len = 0] reports is enough for the
    listing that follows: for a stream of chained keys that is not
    empty, the first call returns twice the size of the stream and
    writes nothing, and a second call with a destination of that size
    returns the names of the chunk-0 keys, never the truncation
    error.  The size is doubled in [int]: this is so for a stream of
    fewer than [2^30] bytes. *)
Theorem X14_list_probe_then_list `{Hdr : ChainHeader} {H W : Type}
    `{Ops : !XattrOps H W}
    (fn : H) (names0 : list ascii) (w : W) (tr : list (syscall H))
    (entries : list (list ascii * Z)) (d0 : list ascii) :
  header_ok ->
  Forall (fun e => cstring (fst e) /\ encodable (fst e) (snd e)) entries ->
  entries ≠ [] ->
  Z.of_nat (length (physical_keys entries)) < 2 ^ 30 ->
  prim_listxattr fn 0 w = (Z.of_nat (length (physical_keys entries)), d0) ->
  malloc_ok (Z.of_nat (length (physical_keys entries)) * 2) w = true ->
  prim_listxattr fn (Z.of_nat (length (physical_keys entries)) * 2) w
  = (Z.of_nat (length (physical_keys entries)), physical_keys entries) ->
  exists len,
    chain_listxattr fn names0 0 (State w tr)
    = Ret ((len, names0), State w (tr ++ [Listxattr fn 0]))
    /\ forall names tr',
         Z.of_nat (length names) = len ->
         chain_listxattr fn names len (State w tr')
         = Ret ((Z.of_nat (length (logical_names entries)),
                 logical_names entries
                 ++ drop (length (logical_names entries)) names),
                State w (tr' ++ [Listxattr fn 0; Listxattr fn len])).
Proof.
  intros Hok Hes Hne Hsmall Hp0 Hm Hp.
  pose proof (physical_keys_length entries) as Hcount.
  pose proof (logical_names_length entries) as Hnames.
  assert (0 < length entries)%nat by (destruct entries; [done|simpl; lia]).
  exists (Z.of_nat (length (physical_keys entries)) * 2). split.
  - unfold chain_listxattr. rewrite bool_decide_eq_true_2 by done.
    unfold mbind, sys_listxattr. simpl world. rewrite Hp0.
    rewrite bool_decide_eq_true_2 by done. simpl. unfold mret.
    by rewrite c_int_small by (unfold INT_MAX; lia).
  - intros names tr' Hlen.
    rewrite (chain_listxattr_to_loop fn names _ w tr' _ d0 _ Hp0 ltac:(lia)
               Hsmall Hm Hp ltac:(lia));
      [|intros Heq; rewrite Heq in Hcount; simpl in Hcount; lia|lia].
    pose proof (chain_listxattr_loop_keys entries Hok Hes
                  (length (physical_keys entries)) []
                  (drop (length (physical_keys entries))
                        (resize (Z.to_nat (Z.of_nat (length (physical_keys entries)) * 2))
                                NUL (junk w)))
                  [] names
                  (State w (tr' ++ [Listxattr fn 0;
                                    Listxattr fn (Z.of_nat (length (physical_keys entries)) * 2)])))
      as Hloop.
    cbn [app length Nat.add] in Hloop. change (Z.of_nat 0) with 0 in Hloop.
    rewrite Hlen in Hloop. apply Hloop; unfold INT_MAX; lia.
Qed.

Lemma X14_list_probe_then_list_witness :
  exists len,
    chain_flistxattr 0 [] 0 (Store.init Store.sample)
    = Ret ((len, []), State Store.sample ([] ++ [Listxattr 0 0]))
    /\ forall names tr',
         Z.of_nat (length names) = len ->
         chain_flistxattr 0 names len (State Store.sample tr')
         = Ret ((Z.of_nat (length (logical_names
                   [(str "c", 0); (str "a@b", 0); (str "a@b", 1)])),
                 logical_names [(str "c", 0); (str "a@b", 0); (str "a@b", 1)]
                 ++ drop (length (logical_names
                            [(str "c", 0); (str "a@b", 0); (str "a@b", 1)]))
                         names),
                State Store.sample (tr' ++ [Listxattr 0 0; Listxattr 0 len])).
Proof.
  apply (X14_list_probe_then_list 0 [] Store.sample []
           [(str "c", 0); (str "a@b", 0); (str "a@b", 1)] []).
  - unfold header_ok. simpl. lia.
  - repeat constructor; simpl;
      try (apply (bool_decide_unpack _); vm_compute; exact I);
      vm_compute; reflexivity.
  - discriminate.
  - vm_compute. reflexivity.
  - vm_compute. reflexivity.
  - reflexivity.
  - vm_compute. reflexivity.
Defined.

(** X15.  What the growing read hands back, as long as the doubled size
    has not left [size_t] (the first 54 rounds) and the primitive get
    never reports more bytes than it had room for: the result is never
    the truncation error; with a result that is not positive [bp] is
    left alone; with a positive result [r] a [bp] that is not null
    receives a buffer of exactly [r] bytes; the store is as it was. *)
Theorem X15_chain_getxattr_buf_result `{Hdr : ChainHeader} {H W : Type}
    `{Ops : !XattrOps H W}
    (fn : H) (name : list ascii) (bp bp' : option (list ascii)) (r : Z)
    (st st' : state H W) (fuel fuel_rd : nat) :
  get_within fn (world st) ->
  (fuel <= 54)%nat ->
  chain_getxattr_buf fuel fuel_rd fn name bp st = Ret ((r, bp'), st') ->
  world st' = world st /\ r ≠ - ERANGE /\ (r <= 0 -> bp' = bp)
  /\ (0 < r ->
      match bp with
      | Some _ => exists buf, bp' = Some buf /\ Z.of_nat (length buf) = r
      | None => bp' = None
      end).
Proof.
  intros Hin Hfuel Hrun. destruct st as [w tr]. simpl world in *.
  unfold chain_getxattr_buf in Hrun.
  apply (chain_getxattr_buf_loop_result fuel_rd fn name bp w Hin) in Hrun;
    [done|lia|].
  assert (2 ^ Z.of_nat fuel <= 2 ^ 54) by (apply Z.pow_le_mono_r; lia).
  change (2 ^ 64) with (1024 * 2 ^ 54). lia.
Qed.

Lemma X15_chain_getxattr_buf_result_witness :
  exists bp' st',
    chain_getxattr_buf 3 3 0 (str "big") (Some []) (Store.init Store.big)
    = Ret ((1500, bp'), st')
    /\ world st' = world (Store.init Store.big)
    /\ 1500 ≠ - ERANGE /\ (1500 <= 0 -> bp' = Some [])
    /\ (0 < 1500 -> exists buf, bp' = Some buf /\ Z.of_nat (length buf) = 1500).
Proof.
  eexists _, _. split; [vm_compute; reflexivity|].
  apply (X15_chain_getxattr_buf_result 0 (str "big") (Some []) _ 1500
           (Store.init Store.big) _ 3 3).
  - apply store_get_within.
  - lia.
  - vm_compute. reflexivity.
Defined.
